(** * reliable.io: sequence arithmetic and the sequence buffer

    A shallow embedding of [reliable.c] (the sequence comparison functions and
    [struct reliable_sequence_buffer_t] with its operations) together with the
    properties of the design document that concern them.

    Conventions of the embedding:
    - C integers are [Z].  A [uint16_t] is a [Z] in [0, 65536); the implicit
      conversion of an [int] expression to a [uint16_t] parameter or field is
      written [u16].  [int] arithmetic is exact arithmetic on [Z]; the
      inputs for which the C code would overflow an [int] are excluded by
      explicit predicates ([remove_entries_defined], [offsets_defined]).
    - C's [%] on [int] truncates towards zero: it is [Z.rem].
    - [entry_sequence] (a [uint32_t *]) is a [list Z] read and written by
      index.  C leaves an access outside the array undefined; [load] and
      [store] are total ([load] reads 0 and [store] changes nothing there), and
      every statement that depends on an access is made for a well-formed
      buffer ([wf]), for which [slot_in_bounds] shows that the indices the
      code computes from sequence numbers are inside.
    - [entry_data] is opaque to all properties here: a returned [void *] is
      the byte offset into [entry_data], and [NULL] is [None].  The offset
      [index * entry_stride] is an [int] product in C; it is the exact
      product for the buffers of [offsets_defined], and every statement about
      the value of an offset carries that hypothesis. *)

From Stdlib Require Import ZArith Lia Bool.
From stdpp Require Import base numbers list.

Local Open Scope Z_scope.

Module Reliable.

(** ** Machine integers *)

Definition INT_MIN : Z := -2147483648.
Definition INT_MAX : Z := 2147483647.

Definition is_int (z : Z) : Prop := INT_MIN <= z <= INT_MAX.
Definition is_u16 (z : Z) : Prop := 0 <= z < 65536.

(** Conversion of an [int] value to [uint16_t]. *)
Definition u16 (z : Z) : Z := z mod 65536.

(** The value of a [uint32_t] whose four bytes are [b0 .. b3]. *)
Definition u32_of_bytes (b0 b1 b2 b3 : Z) : Z :=
  Z.lor b0 (Z.lor (Z.shiftl b1 8) (Z.lor (Z.shiftl b2 16) (Z.shiftl b3 24))).

(** The tag of an empty slot, [0xFFFFFFFF]. *)
Definition EMPTY : Z := 4294967295.

(** ** Sequence arithmetic *)

Definition reliable_sequence_greater_than (s1 s2 : Z) : bool :=
  ((s1 >? s2) && (s1 - s2 <=? 32768)) ||
  ((s1 <? s2) && (s2 - s1 >? 32768)).

Definition reliable_sequence_less_than (s1 s2 : Z) : bool :=
  reliable_sequence_greater_than s2 s1.

(** ** The sequence buffer *)

Record reliable_sequence_buffer_t : Type := mk_sequence_buffer {
  sequence : Z;                (* uint16_t *)
  num_entries : Z;             (* int *)
  entry_stride : Z;            (* int *)
  entry_sequence : list Z      (* uint32_t[num_entries] *)
}.

Definition with_sequence (sb : reliable_sequence_buffer_t) (s : Z) :=
  mk_sequence_buffer s (num_entries sb) (entry_stride sb) (entry_sequence sb).

Definition with_entries (sb : reliable_sequence_buffer_t) (a : list Z) :=
  mk_sequence_buffer (sequence sb) (num_entries sb) (entry_stride sb) a.

(** Array read [a[i]] and write [a[i] = v]. *)
Definition load (a : list Z) (i : Z) : Z :=
  if 0 <=? i then default 0 (a !! Z.to_nat i) else 0.

Definition store (a : list Z) (i v : Z) : list Z :=
  if 0 <=? i then <[Z.to_nat i := v]> a else a.

(** [reliable_sequence_buffer_create]: both asserts must hold; the struct is
    filled in, and the two arrays come from [malloc] and are not written.
    [mem] is the indeterminate content of the block [malloc] returned for
    [entry_sequence]. *)
Definition reliable_sequence_buffer_create
    (mem : nat -> Z) (num_entries entry_stride : Z)
    : option reliable_sequence_buffer_t :=
  if (num_entries >? 0) && (entry_stride >? 0) then
    Some (mk_sequence_buffer 0 num_entries entry_stride
            (map mem (seq 0 (Z.to_nat num_entries))))
  else None.

(** [reliable_sequence_buffer_reset]: [memset] with byte [0xFF] over the
    whole of [entry_sequence]. *)
Definition reliable_sequence_buffer_reset (sb : reliable_sequence_buffer_t) :=
  mk_sequence_buffer 0 (num_entries sb) (entry_stride sb)
    (replicate (Z.to_nat (num_entries sb)) (u32_of_bytes 255 255 255 255)).

(** The first loop of [reliable_sequence_buffer_remove_entries]:
    [trips] iterations starting at [sequence], each one writing the empty tag
    at [sequence % num_entries] and incrementing [sequence]. *)
Fixpoint clear_sequences (n : Z) (a : list Z) (sequence : Z) (trips : nat)
    : list Z :=
  match trips with
  | O => a
  | S k => clear_sequences n (store a (Z.rem sequence n) EMPTY) (sequence + 1) k
  end.

(** The second loop: [trips] iterations starting at index [i]. *)
Fixpoint clear_indices (a : list Z) (i : Z) (trips : nat) : list Z :=
  match trips with
  | O => a
  | S k => clear_indices (store a i EMPTY) (i + 1) k
  end.

Definition reliable_sequence_buffer_remove_entries
    (sb : reliable_sequence_buffer_t) (start_sequence finish_sequence : Z) :=
  let finish_sequence :=
    if finish_sequence <? start_sequence then finish_sequence + 65535
    else finish_sequence in
  if finish_sequence - start_sequence <? num_entries sb then
    with_entries sb
      (clear_sequences (num_entries sb) (entry_sequence sb) start_sequence
         (Z.to_nat (finish_sequence - start_sequence + 1)))
  else
    with_entries sb
      (clear_indices (entry_sequence sb) 0 (Z.to_nat (num_entries sb))).

(** The common tail of [reliable_sequence_buffer_insert]: tag the slot and
    return the address of its payload.  The offset is the [int] product
    [index * entry_stride] of the code where that product does not overflow
    ([offsets_defined]). *)
Definition insert_slot (sb : reliable_sequence_buffer_t) (s : Z)
    : reliable_sequence_buffer_t * option Z :=
  let index := Z.rem s (num_entries sb) in
  (with_entries sb (store (entry_sequence sb) index s),
   Some (index * entry_stride sb)).

Definition reliable_sequence_buffer_insert
    (sb : reliable_sequence_buffer_t) (s : Z)
    : reliable_sequence_buffer_t * option Z :=
  if reliable_sequence_greater_than (u16 (s + 1)) (sequence sb) then
    insert_slot
      (with_sequence
         (reliable_sequence_buffer_remove_entries sb (sequence sb) s)
         (u16 (s + 1)))
      s
  else if reliable_sequence_less_than s (u16 (sequence sb - num_entries sb))
  then (sb, None)
  else insert_slot sb s.

Definition reliable_sequence_buffer_remove
    (sb : reliable_sequence_buffer_t) (s : Z) :=
  with_entries sb (store (entry_sequence sb) (Z.rem s (num_entries sb)) EMPTY).

Definition reliable_sequence_buffer_available
    (sb : reliable_sequence_buffer_t) (s : Z) : bool :=
  load (entry_sequence sb) (Z.rem s (num_entries sb)) =? EMPTY.

Definition reliable_sequence_buffer_exists
    (sb : reliable_sequence_buffer_t) (s : Z) : bool :=
  load (entry_sequence sb) (Z.rem s (num_entries sb)) =? s.

Definition reliable_sequence_buffer_find
    (sb : reliable_sequence_buffer_t) (s : Z) : option Z :=
  let index := Z.rem s (num_entries sb) in
  if load (entry_sequence sb) index =? s
  then Some (index * entry_stride sb)
  else None.

(** ** Well-formed buffers and defined calls *)

(** What the C types and the allocation in [create] guarantee of a buffer. *)
Definition wf (sb : reliable_sequence_buffer_t) : Prop :=
  0 < num_entries sb /\
  Z.of_nat (length (entry_sequence sb)) = num_entries sb /\
  is_u16 (sequence sb).

(** The buffers on which the [int] products of the code do not overflow:
    [num_entries * entry_stride], the size [create] passes to [malloc], and
    with it every [index * entry_stride] of a slot. *)
Definition offsets_defined (sb : reliable_sequence_buffer_t) : Prop :=
  0 < entry_stride sb /\ num_entries sb * entry_stride sb <= INT_MAX.

(** The calls of [remove_entries] on which the C code neither overflows an
    [int] nor indexes with a negative remainder. *)
Definition remove_entries_defined
    (sb : reliable_sequence_buffer_t) (start finish : Z) : Prop :=
  let finish' := if finish <? start then finish + 65535 else finish in
  is_int start /\ is_int finish /\ is_int finish' /\
  is_int (finish' - start) /\
  (finish' - start < num_entries sb ->
   finish' < INT_MAX /\ (start <= finish' -> 0 <= start)).

(** The cyclic inclusive range [[a, b]] of sequence numbers. *)
Definition in_cyclic_range (a b t : Z) : Prop :=
  if a <=? b then a <= t <= b else a <= t \/ t <= b.

(** States reachable from a reset buffer through the public operations. *)
Inductive reachable : reliable_sequence_buffer_t -> Prop :=
| reach_reset mem n stride sb :
    reliable_sequence_buffer_create mem n stride = Some sb ->
    reachable (reliable_sequence_buffer_reset sb)
| reach_insert sb s :
    reachable sb -> is_u16 s ->
    reachable (fst (reliable_sequence_buffer_insert sb s))
| reach_remove sb s :
    reachable sb -> is_u16 s ->
    reachable (reliable_sequence_buffer_remove sb s)
| reach_remove_entries sb start finish :
    reachable sb -> remove_entries_defined sb start finish ->
    reachable (reliable_sequence_buffer_remove_entries sb start finish).

(** The tag discipline of the slots: slot [i] is empty or holds a 16-bit
    sequence number whose remainder by the capacity is [i]. *)
Definition slots_consistent (sb : reliable_sequence_buffer_t) : Prop :=
  forall i, 0 <= i < num_entries sb ->
    load (entry_sequence sb) i = EMPTY \/
    (0 <= load (entry_sequence sb) i <= 65535 /\
     Z.rem (load (entry_sequence sb) i) (num_entries sb) = i).

(** A resident sequence number is never more than the largest multiple of
    the capacity below 65536 behind [sequence]. *)
Definition window_bounded (sb : reliable_sequence_buffer_t) : Prop :=
  forall t, is_u16 t ->
    reliable_sequence_buffer_exists sb t = true ->
    sequence sb <= 65536 / num_entries sb * num_entries sb + t.

(** Inserting a list of sequence numbers, one after the other. *)
Definition insert_all (sb : reliable_sequence_buffer_t) (l : list Z) :=
  fold_left (fun b s => fst (reliable_sequence_buffer_insert b s)) l sb.

(** The sequence numbers [0 .. n-1]. *)
Definition first_sequences (n : nat) : list Z := map Z.of_nat (seq 0 n).

(** [reliable_sequence_buffer_at_index]: the two asserts on [index] must
    hold ([None] is the failed assert); the result is the payload address of
    the slot, or [NULL] when the slot is empty. *)
Definition reliable_sequence_buffer_at_index
    (sb : reliable_sequence_buffer_t) (index : Z) : option (option Z) :=
  if (index >=? 0) && (index <? num_entries sb) then
    Some (if negb (load (entry_sequence sb) index =? EMPTY)
          then Some (index * entry_stride sb)
          else None)
  else None.

(** Every existing sequence number is one of the [num_entries] numbers
    before [sequence]. *)
Definition trailing_window (sb : reliable_sequence_buffer_t) : Prop :=
  forall t, is_u16 t ->
    reliable_sequence_buffer_exists sb t = true ->
    1 <= u16 (sequence sb - t) <= num_entries sb.

(** The [k] consecutive sequence numbers starting at [q], wrapping at
    65536. *)
Definition consecutive (q : Z) (k : nat) : list Z :=
  map (fun j => u16 (q + Z.of_nat j)) (seq 0 k).

(** Case analysis on the integer comparisons in the goal. *)
Ltac case_cmp :=
  repeat match goal with
  | |- context [?a <=? ?b] => destruct (Z.leb_spec a b)
  | |- context [?a <? ?b] => destruct (Z.ltb_spec a b)
  | |- context [?a =? ?b] => destruct (Z.eqb_spec a b)
  end.

(** * Properties *)

(** ** Sequence arithmetic *)

Lemma greater_than_spec s1 s2 :
  reliable_sequence_greater_than s1 s2 = true <->
  (s2 < s1 /\ s1 - s2 <= 32768) \/ (s1 < s2 /\ 32768 < s2 - s1).
Proof.
  unfold reliable_sequence_greater_than.
  rewrite !Z.gtb_ltb, orb_true_iff, !andb_true_iff.
  rewrite !Z.ltb_lt, Z.leb_le. reflexivity.
Qed.

Lemma greater_than_false s1 s2 :
  reliable_sequence_greater_than s1 s2 = false <->
  ~ ((s2 < s1 /\ s1 - s2 <= 32768) \/ (s1 < s2 /\ 32768 < s2 - s1)).
Proof.
  rewrite <- greater_than_spec. destruct (reliable_sequence_greater_than s1 s2).
  - split; [discriminate | intros H; exfalso; apply H; reflexivity].
  - split; [intros _ H; discriminate | reflexivity].
Qed.

(** C1. For 16-bit sequence numbers [a <> b] exactly one of
    [greater_than a b] and [greater_than b a] is true (also when they are
    exactly 32768 apart, where the numerically larger one is the greater), and
    [greater_than a a] is false. *)
Theorem sequence_greater_than_strict_total (a b : Z) :
  is_u16 a -> is_u16 b ->
  (a <> b ->
   reliable_sequence_greater_than a b = negb (reliable_sequence_greater_than b a)) /\
  (Z.abs (a - b) = 32768 ->
   reliable_sequence_greater_than (Z.max a b) (Z.min a b) = true /\
   reliable_sequence_greater_than (Z.min a b) (Z.max a b) = false) /\
  reliable_sequence_greater_than a a = false.
Proof.
  intros Ha Hb. unfold is_u16 in *. repeat split.
  - intros Hab.
    destruct (reliable_sequence_greater_than a b) eqn:E1;
      destruct (reliable_sequence_greater_than b a) eqn:E2; try reflexivity;
      exfalso.
    + apply greater_than_spec in E1, E2. lia.
    + apply greater_than_false in E1, E2. lia.
  - apply greater_than_spec. lia.
  - apply greater_than_false. lia.
  - apply greater_than_false. lia.
Qed.

Lemma sequence_greater_than_strict_total_witness :
  (reliable_sequence_greater_than 32768 0 =
   negb (reliable_sequence_greater_than 0 32768)) /\
  reliable_sequence_greater_than 32768 0 = true.
Proof.
  assert (Ha : is_u16 32768) by (unfold is_u16; lia).
  assert (Hb : is_u16 0) by (unfold is_u16; lia).
  destruct (sequence_greater_than_strict_total 32768 0 Ha Hb) as (H1 & H2 & _).
  split.
  - apply H1. lia.
  - apply H2. reflexivity.
Defined.

(** ** Array accesses *)

Lemma length_store a i v : length (store a i v) = length a.
Proof. unfold store. destruct (0 <=? i); [apply length_insert | reflexivity]. Qed.

Lemma load_store (a : list Z) i j v :
  load (store a i v) j =
  if (i =? j) && (0 <=? i) && (i <? Z.of_nat (length a)) then v else load a j.
Proof.
  unfold load, store.
  destruct (Z.eqb_spec i j) as [->|Hij]; simpl.
  - destruct (Z.leb_spec 0 j) as [Hj|Hj]; simpl; [|reflexivity].
    destruct (Z.ltb_spec j (Z.of_nat (length a))) as [Hlt|Hge].
    + rewrite list_lookup_insert_eq by lia. reflexivity.
    + rewrite list_insert_ge by lia. reflexivity.
  - destruct (Z.leb_spec 0 j) as [Hj|Hj]; [|reflexivity].
    destruct (Z.leb_spec 0 i) as [Hi|Hi]; [|reflexivity].
    rewrite list_lookup_insert_ne by lia. reflexivity.
Qed.

Lemma load_store_eq (a : list Z) i v :
  0 <= i < Z.of_nat (length a) -> load (store a i v) i = v.
Proof.
  intros H. rewrite load_store, Z.eqb_refl. simpl.
  destruct (Z.leb_spec 0 i); [|lia].
  destruct (Z.ltb_spec i (Z.of_nat (length a))); [reflexivity | lia].
Qed.

Lemma load_store_ne (a : list Z) i j v :
  i <> j -> load (store a i v) j = load a j.
Proof.
  intros H. rewrite load_store.
  destruct (Z.eqb_spec i j); [contradiction | reflexivity].
Qed.

Lemma load_store_cases (a : list Z) i j v :
  load (store a i v) j = v \/ load (store a i v) j = load a j.
Proof.
  rewrite load_store.
  destruct ((i =? j) && (0 <=? i) && (i <? Z.of_nat (length a))); auto.
Qed.

Lemma load_replicate n v i :
  0 <= i < Z.of_nat n -> load (replicate n v) i = v.
Proof.
  intros H. unfold load. destruct (Z.leb_spec 0 i); [|lia].
  rewrite lookup_replicate_2 by lia. reflexivity.
Qed.

Lemma EMPTY_bytes : u32_of_bytes 255 255 255 255 = EMPTY.
Proof. reflexivity. Qed.

(** Every index the code computes from a sequence number is inside the
    array, and C's remainder agrees with [mod] there. *)
Lemma rem_mod s n : 0 <= s -> 0 < n -> Z.rem s n = s mod n.
Proof. intros. apply Z.rem_mod_nonneg; lia. Qed.

Lemma slot_in_bounds sb s :
  wf sb -> 0 <= s ->
  0 <= Z.rem s (num_entries sb) < Z.of_nat (length (entry_sequence sb)).
Proof.
  intros (Hn & Hlen & _) Hs. rewrite Hlen, rem_mod by lia.
  apply Z.mod_pos_bound. lia.
Qed.

(** The payload offset of a slot is an [int] and the payload lies inside
    [entry_data], whose size is [num_entries * entry_stride]. *)
Lemma slot_offset_defined sb s :
  wf sb -> offsets_defined sb -> 0 <= s ->
  let offset := Z.rem s (num_entries sb) * entry_stride sb in
  is_int offset /\ 0 <= offset /\
  offset + entry_stride sb <= num_entries sb * entry_stride sb.
Proof.
  intros Hwf (Hst & Hmax) Hs offset. subst offset.
  pose proof (slot_in_bounds sb s Hwf Hs) as Hb.
  destruct Hwf as (Hn & Hlen & _). rewrite Hlen in Hb.
  unfold is_int, INT_MIN, INT_MAX in *.
  set (i := Z.rem s (num_entries sb)) in *. nia.
Qed.

(** ** The two loops of [remove_entries] *)

Lemma length_clear_sequences n trips : forall a s,
  length (clear_sequences n a s trips) = length a.
Proof.
  induction trips as [|k IH]; intros a s; simpl; [reflexivity|].
  rewrite IH. apply length_store.
Qed.

Lemma length_clear_indices trips : forall a i,
  length (clear_indices a i trips) = length a.
Proof.
  induction trips as [|k IH]; intros a i; simpl; [reflexivity|].
  rewrite IH. apply length_store.
Qed.

(** A loop only ever writes the empty tag. *)
Lemma clear_sequences_cases n trips j : forall a s,
  load (clear_sequences n a s trips) j = EMPTY \/
  load (clear_sequences n a s trips) j = load a j.
Proof.
  induction trips as [|k IH]; intros a s; simpl; [auto|].
  destruct (IH (store a (Z.rem s n) EMPTY) (s + 1)) as [H|H]; [auto|].
  rewrite H. apply load_store_cases.
Qed.

Lemma clear_indices_cases trips j : forall a i,
  load (clear_indices a i trips) j = EMPTY \/
  load (clear_indices a i trips) j = load a j.
Proof.
  induction trips as [|k IH]; intros a i; simpl; [auto|].
  destruct (IH (store a i EMPTY) (i + 1)) as [H|H]; [auto|].
  rewrite H. apply load_store_cases.
Qed.

Lemma clear_sequences_keeps_empty n trips j a s :
  load a j = EMPTY -> load (clear_sequences n a s trips) j = EMPTY.
Proof.
  intros H. destruct (clear_sequences_cases n trips j a s); congruence.
Qed.

(** The slots of the sequences [s, s + trips) are cleared ... *)
Lemma clear_sequences_hit n trips : forall a s q,
  0 < n -> Z.of_nat (length a) = n -> 0 <= s ->
  s <= q < s + Z.of_nat trips ->
  load (clear_sequences n a s trips) (q mod n) = EMPTY.
Proof.
  induction trips as [|k IH]; intros a s q Hn Hlen Hs Hq; [lia|].
  simpl. destruct (Z.eq_dec q s) as [->|Hne].
  - apply clear_sequences_keeps_empty.
    rewrite rem_mod by lia. apply load_store_eq.
    rewrite Hlen. apply Z.mod_pos_bound. lia.
  - apply IH; try lia. rewrite length_store. exact Hlen.
Qed.

(** ... and no other slot is written. *)
Lemma clear_sequences_miss n trips j : forall a s,
  0 < n -> 0 <= s ->
  (forall q, s <= q < s + Z.of_nat trips -> q mod n <> j) ->
  load (clear_sequences n a s trips) j = load a j.
Proof.
  induction trips as [|k IH]; intros a s Hn Hs Hq; [reflexivity|].
  simpl. rewrite IH; try lia.
  - apply load_store_ne. rewrite rem_mod by lia. apply Hq. lia.
  - intros q Hq'. apply Hq. lia.
Qed.

Lemma clear_indices_spec trips : forall a i j,
  0 <= i -> i + Z.of_nat trips <= Z.of_nat (length a) ->
  load (clear_indices a i trips) j =
  if (i <=? j) && (j <? i + Z.of_nat trips) then EMPTY else load a j.
Proof.
  induction trips as [|k IH]; intros a i j Hi Hlen.
  - simpl clear_indices. case_cmp; simpl; try reflexivity; lia.
  - simpl clear_indices. rewrite IH by (rewrite ?length_store; lia).
    rewrite load_store. case_cmp; simpl; try reflexivity; lia.
Qed.

(** The second loop leaves an array of empty tags. *)
Lemma clear_indices_all (a : list Z) :
  clear_indices a 0 (length a) = replicate (length a) EMPTY.
Proof.
  apply list_eq. intros i.
  destruct (decide (i < length a)%nat) as [Hlt|Hge].
  - rewrite lookup_replicate_2 by lia.
    pose proof (clear_indices_spec (length a) a 0 (Z.of_nat i)) as H.
    unfold load in H at 1.
    destruct (Z.leb_spec 0 (Z.of_nat i)); [|lia].
    rewrite Nat2Z.id in H.
    destruct (clear_indices a 0 (length a) !! i) as [v|] eqn:E.
    + simpl in H. rewrite H by lia.
      destruct (Z.ltb_spec (Z.of_nat i) (0 + Z.of_nat (length a))); [reflexivity | lia].
    + apply lookup_ge_None in E. rewrite length_clear_indices in E. lia.
  - rewrite lookup_ge_None_2 by (rewrite length_clear_indices; lia).
    symmetry. apply lookup_replicate_None. lia.
Qed.

(** ** Well-formedness *)

Lemma create_wf mem n stride sb :
  reliable_sequence_buffer_create mem n stride = Some sb ->
  wf sb /\ num_entries sb = n /\ entry_stride sb = stride /\ 0 < stride.
Proof.
  unfold reliable_sequence_buffer_create. rewrite !Z.gtb_ltb.
  destruct (Z.ltb_spec 0 n), (Z.ltb_spec 0 stride); simpl; try discriminate.
  intros [= <-]. unfold wf, is_u16. simpl.
  rewrite length_map, length_seq. repeat split; lia.
Qed.

Lemma reset_wf sb : 0 < num_entries sb -> wf (reliable_sequence_buffer_reset sb).
Proof.
  intros H. unfold wf, is_u16. simpl. rewrite length_replicate.
  repeat split; lia.
Qed.

Lemma remove_entries_fields sb start finish :
  let sb' := reliable_sequence_buffer_remove_entries sb start finish in
  sequence sb' = sequence sb /\ num_entries sb' = num_entries sb /\
  entry_stride sb' = entry_stride sb /\
  length (entry_sequence sb') = length (entry_sequence sb).
Proof.
  unfold reliable_sequence_buffer_remove_entries.
  destruct (_ <? num_entries sb); simpl;
    rewrite ?length_clear_sequences, ?length_clear_indices; auto.
Qed.

Lemma remove_entries_wf sb start finish :
  wf sb -> wf (reliable_sequence_buffer_remove_entries sb start finish).
Proof.
  intros (Hn & Hlen & Hs).
  destruct (remove_entries_fields sb start finish) as (E1 & E2 & _ & E4).
  unfold wf. rewrite E1, E2, E4. auto.
Qed.

Lemma remove_wf sb s : wf sb -> wf (reliable_sequence_buffer_remove sb s).
Proof.
  intros (Hn & Hlen & Hs). unfold wf. simpl. rewrite length_store. auto.
Qed.

Lemma u16_range z : is_u16 (u16 z).
Proof. unfold is_u16, u16. apply Z.mod_pos_bound. lia. Qed.

Lemma u16_small z : is_u16 z -> u16 z = z.
Proof. unfold is_u16, u16. intros. apply Z.mod_small. lia. Qed.

Lemma insert_slot_wf sb s : wf sb -> wf (fst (insert_slot sb s)).
Proof.
  intros (Hn & Hlen & Hs). unfold wf. simpl. rewrite length_store. auto.
Qed.

Lemma insert_wf sb s : wf sb -> wf (fst (reliable_sequence_buffer_insert sb s)).
Proof.
  intros H. unfold reliable_sequence_buffer_insert.
  destruct (reliable_sequence_greater_than _ _).
  - apply insert_slot_wf.
    destruct (remove_entries_wf sb (sequence sb) s H) as (Hn & Hlen & _).
    unfold wf. simpl. split; [exact Hn|]. split; [exact Hlen|]. apply u16_range.
  - destruct (reliable_sequence_less_than _ _); [exact H|].
    apply insert_slot_wf, H.
Qed.

Lemma reachable_wf sb : reachable sb -> wf sb.
Proof.
  induction 1 as [mem n stride sb Hc | | |].
  - apply create_wf in Hc. destruct Hc as ((Hn & _) & _). apply reset_wf, Hn.
  - apply insert_wf; assumption.
  - apply remove_wf; assumption.
  - apply remove_entries_wf; assumption.
Qed.

(** The call that [insert] makes to [remove_entries] is always a defined
    one. *)
Lemma insert_call_defined sb s :
  wf sb -> is_u16 s -> remove_entries_defined sb (sequence sb) s.
Proof.
  intros (Hn & Hlen & Hs) Hs'. unfold remove_entries_defined, is_int, is_u16,
    INT_MIN, INT_MAX in *.
  destruct (Z.ltb_spec s (sequence sb)); repeat split; lia.
Qed.

(** ** Bulk removal *)

(** C4. [remove_entries start finish] adds exactly 65535 to [finish] when
    [finish < start]; with that linearized [finish], if [finish - start] is
    below the capacity it writes the empty tag at [sequence % capacity] for
    each [sequence] from [start] to [finish] inclusive and at no other slot,
    and otherwise it leaves all slots empty, whatever the range is.  No
    other field changes. *)
Theorem remove_entries_linearized_clear sb start finish :
  wf sb -> remove_entries_defined sb start finish ->
  let n := num_entries sb in
  let finish' := if finish <? start then finish + 65535 else finish in
  let sb' := reliable_sequence_buffer_remove_entries sb start finish in
  sequence sb' = sequence sb /\ num_entries sb' = n /\
  entry_stride sb' = entry_stride sb /\
  (finish' - start < n ->
     (forall q, start <= q <= finish' ->
        load (entry_sequence sb') (Z.rem q n) = EMPTY) /\
     (forall i, (forall q, start <= q <= finish' -> Z.rem q n <> i) ->
        load (entry_sequence sb') i = load (entry_sequence sb) i)) /\
  (n <= finish' - start ->
     entry_sequence sb' = replicate (Z.to_nat n) EMPTY).
Proof.
  intros (Hn & Hlen & Hs) (_ & _ & _ & _ & Hdef) n finish' sb'.
  destruct (remove_entries_fields sb start finish) as (E1 & E2 & E3 & _).
  split; [exact E1|]. split; [exact E2|]. split; [exact E3|].
  subst sb'. unfold reliable_sequence_buffer_remove_entries.
  fold finish'. fold n. split.
  - intros Hspan. destruct (Z.ltb_spec (finish' - start) n); [|lia].
    simpl. destruct (Hdef Hspan) as (_ & Hstart). split.
    + intros q Hq. rewrite rem_mod by lia.
      apply clear_sequences_hit; lia.
    + intros i Hi. destruct (Z.le_gt_cases start finish') as [Hle|Hgt].
      * apply clear_sequences_miss; try lia.
        intros q Hq. rewrite <- rem_mod by lia. apply Hi. lia.
      * replace (Z.to_nat (finish' - start + 1)) with O by lia. reflexivity.
  - intros Hspan. destruct (Z.ltb_spec (finish' - start) n); [lia|].
    simpl. subst n. rewrite <- Hlen, Nat2Z.id. apply clear_indices_all.
Qed.

Lemma remove_entries_linearized_clear_witness :
  let sb := mk_sequence_buffer 65534 4 1 [65532; 1; 2; 65535] in
  load (entry_sequence (reliable_sequence_buffer_remove_entries sb 65534 1)) 3
    = EMPTY /\
  load (entry_sequence (reliable_sequence_buffer_remove_entries sb 65534 1)) 1
    = 1.
Proof.
  intros sb.
  assert (Hwf : wf sb) by (unfold wf, is_u16; simpl; lia).
  assert (Hdef : remove_entries_defined sb 65534 1)
    by (unfold remove_entries_defined, is_int, INT_MIN, INT_MAX; simpl; lia).
  destruct (remove_entries_linearized_clear sb 65534 1 Hwf Hdef)
    as (_ & _ & _ & Hloop & _).
  assert (Hspan : (if 1 <? 65534 then 1 + 65535 else 1) - 65534 < num_entries sb)
    by (simpl; lia).
  destruct (Hloop Hspan) as (Hhit & Hmiss).
  split.
  - apply (Hhit 65535). simpl. lia.
  - rewrite Hmiss; [reflexivity|].
    intros q Hq. simpl in Hq.
    assert (q = 65534 \/ q = 65535 \/ q = 65536) as [E|[E|E]] by lia;
      subst q; simpl; discriminate.
Defined.

(** ** Creation and reset *)

(** C2 (the code at the failing input). [create] never writes
    [entry_sequence]: with a block from [malloc] whose first word is 0, slot
    0 of the created buffer is not available and sequence 0 exists. *)
Theorem create_leaves_tags_unwritten :
  exists sb,
    reliable_sequence_buffer_create (fun _ => 0) 1 1 = Some sb /\
    entry_sequence sb = [0] /\
    reliable_sequence_buffer_available sb 0 = false /\
    reliable_sequence_buffer_exists sb 0 = true.
Proof. eexists. repeat split. Qed.

(** [reset] is what empties the slots. *)
Lemma reset_all_available sb s :
  0 < num_entries sb -> 0 <= s ->
  let sb' := reliable_sequence_buffer_reset sb in
  reliable_sequence_buffer_available sb' s = true /\
  (is_u16 s -> reliable_sequence_buffer_exists sb' s = false).
Proof.
  intros Hn Hs sb'.
  assert (Hl : load (entry_sequence sb') (Z.rem s (num_entries sb')) = EMPTY).
  { simpl. rewrite rem_mod by lia. rewrite EMPTY_bytes. apply load_replicate.
    pose proof (Z.mod_pos_bound s (num_entries sb) Hn). lia. }
  unfold reliable_sequence_buffer_available, reliable_sequence_buffer_exists.
  rewrite Hl. split; [apply Z.eqb_refl|].
  unfold is_u16, EMPTY. intros H. apply Z.eqb_neq. lia.
Qed.

(** ** Insertion *)

Lemma insert_slot_snd sb s :
  snd (insert_slot sb s) = Some (Z.rem s (num_entries sb) * entry_stride sb).
Proof. reflexivity. Qed.

(** C5. [insert s] returns [NULL] exactly when [s + 1] is not more recent
    than [sequence] and [s] is older than [sequence - num_entries] (as a
    16-bit number); a rejected insert leaves the whole buffer as it was. *)
Theorem insert_rejected_iff sb s :
  (snd (reliable_sequence_buffer_insert sb s) = None <->
   reliable_sequence_greater_than (u16 (s + 1)) (sequence sb) = false /\
   reliable_sequence_less_than s (u16 (sequence sb - num_entries sb)) = true) /\
  (snd (reliable_sequence_buffer_insert sb s) = None ->
   fst (reliable_sequence_buffer_insert sb s) = sb).
Proof.
  unfold reliable_sequence_buffer_insert.
  destruct (reliable_sequence_greater_than (u16 (s + 1)) (sequence sb)).
  - rewrite insert_slot_snd. split; [split|]; try discriminate.
    intros [? _]. discriminate.
  - destruct (reliable_sequence_less_than s _).
    + simpl. tauto.
    + rewrite insert_slot_snd. split; [split|]; try discriminate.
      intros [_ ?]. discriminate.
Qed.

(** C6. When [s + 1] is more recent than [sequence], [insert s] does not
    return [NULL]: on a buffer whose offsets do not overflow an [int] it
    returns the payload address of slot [s % num_entries], an [int] offset
    whose [entry_stride] bytes lie inside [entry_data]. *)
Theorem insert_fresh_not_rejected sb s :
  wf sb -> offsets_defined sb -> is_u16 s ->
  reliable_sequence_greater_than (u16 (s + 1)) (sequence sb) = true ->
  let offset := Z.rem s (num_entries sb) * entry_stride sb in
  snd (reliable_sequence_buffer_insert sb s) <> None /\
  snd (reliable_sequence_buffer_insert sb s) = Some offset /\
  0 <= Z.rem s (num_entries sb) < num_entries sb /\
  is_int offset /\ 0 <= offset /\
  offset + entry_stride sb <= num_entries sb * entry_stride sb.
Proof.
  intros Hwf Hoff Hs Hgt offset. subst offset.
  unfold reliable_sequence_buffer_insert. rewrite Hgt.
  rewrite insert_slot_snd. simpl.
  destruct (remove_entries_fields sb (sequence sb) s) as (_ & -> & -> & _).
  split; [discriminate|]. split; [reflexivity|].
  assert (H0 : 0 <= s) by (unfold is_u16 in Hs; lia).
  split; [|exact (slot_offset_defined sb s Hwf Hoff H0)].
  pose proof (slot_in_bounds sb s Hwf H0) as H.
  destruct Hwf as (_ & Hlen & _). rewrite Hlen in H. exact H.
Qed.

Lemma insert_fresh_not_rejected_witness :
  snd (reliable_sequence_buffer_insert
         (mk_sequence_buffer 65535 4 8 [65532; 65533; 65534; EMPTY]) 65535)
  = Some 24.
Proof.
  pose (sb := mk_sequence_buffer 65535 4 8 [65532; 65533; 65534; EMPTY]).
  assert (Hwf : wf sb) by (unfold wf, is_u16; simpl; lia).
  assert (Hoff : offsets_defined sb)
    by (unfold offsets_defined, INT_MAX; simpl; lia).
  assert (Hs : is_u16 65535) by (unfold is_u16; lia).
  exact (proj1 (proj2 (insert_fresh_not_rejected sb 65535 Hwf Hoff Hs eq_refl))).
Defined.

(** After a successful insert the slot of [s] holds [s]. *)
Lemma insert_slot_load sb s :
  wf sb -> 0 <= s ->
  load (entry_sequence (fst (insert_slot sb s))) (Z.rem s (num_entries sb)) = s.
Proof.
  intros Hwf Hs. simpl. apply load_store_eq. apply slot_in_bounds; assumption.
Qed.

Lemma insert_fields sb s :
  num_entries (fst (reliable_sequence_buffer_insert sb s)) = num_entries sb /\
  entry_stride (fst (reliable_sequence_buffer_insert sb s)) = entry_stride sb.
Proof.
  unfold reliable_sequence_buffer_insert.
  destruct (reliable_sequence_greater_than _ _).
  - simpl. destruct (remove_entries_fields sb (sequence sb) s) as (_ & -> & -> & _).
    auto.
  - destruct (reliable_sequence_less_than _ _); simpl; auto.
Qed.

(** A buffer that [create] could allocate without overflowing the size has
    defined offsets, and [insert] keeps them defined. *)
Lemma create_offsets_defined mem n stride sb :
  reliable_sequence_buffer_create mem n stride = Some sb ->
  n * stride <= INT_MAX -> offsets_defined sb.
Proof.
  intros Hc Hmax. destruct (create_wf mem n stride sb Hc) as (_ & En & Est & Hst).
  unfold offsets_defined. rewrite En, Est. split; assumption.
Qed.

Lemma insert_offsets_defined sb s :
  offsets_defined sb ->
  offsets_defined (fst (reliable_sequence_buffer_insert sb s)).
Proof.
  unfold offsets_defined. destruct (insert_fields sb s) as (-> & ->). auto.
Qed.

Lemma insert_accepted_load sb s p :
  wf sb -> is_u16 s ->
  snd (reliable_sequence_buffer_insert sb s) = Some p ->
  load (entry_sequence (fst (reliable_sequence_buffer_insert sb s)))
       (Z.rem s (num_entries sb)) = s /\
  p = Z.rem s (num_entries sb) * entry_stride sb.
Proof.
  intros Hwf Hs. unfold reliable_sequence_buffer_insert.
  destruct (reliable_sequence_greater_than _ _).
  - set (sb1 := with_sequence _ _).
    assert (Hwf1 : wf sb1).
    { destruct (remove_entries_wf sb (sequence sb) s Hwf) as (Hn & Hlen & _).
      unfold wf. simpl. split; [exact Hn|]. split; [exact Hlen|]. apply u16_range. }
    assert (E1 : num_entries sb1 = num_entries sb)
      by (simpl; apply remove_entries_fields).
    assert (E2 : entry_stride sb1 = entry_stride sb)
      by (simpl; apply remove_entries_fields).
    rewrite insert_slot_snd, E1, E2. intros [= <-]. split; [|reflexivity].
    rewrite <- E1. apply insert_slot_load; [exact Hwf1 | unfold is_u16 in Hs; lia].
  - destruct (reliable_sequence_less_than _ _); [discriminate|].
    rewrite insert_slot_snd. intros [= <-]. split; [|reflexivity].
    apply insert_slot_load; [exact Hwf | unfold is_u16 in Hs; lia].
Qed.

(** C7. On a buffer whose offsets do not overflow an [int]: if [insert s]
    returns a slot, then right afterwards [exists s] is true and [find s]
    returns that same pointer, the payload area of slot [s % num_entries],
    an [int] offset inside [entry_data]; and whenever [exists s] is false,
    [find s] returns [NULL]. *)
Theorem insert_then_find sb s :
  wf sb -> offsets_defined sb -> is_u16 s ->
  (forall p, snd (reliable_sequence_buffer_insert sb s) = Some p ->
     let sb' := fst (reliable_sequence_buffer_insert sb s) in
     reliable_sequence_buffer_exists sb' s = true /\
     reliable_sequence_buffer_find sb' s = Some p /\
     p = Z.rem s (num_entries sb) * entry_stride sb /\
     is_int p /\ 0 <= p /\
     p + entry_stride sb <= num_entries sb * entry_stride sb) /\
  (reliable_sequence_buffer_exists sb s = false ->
   reliable_sequence_buffer_find sb s = None).
Proof.
  intros Hwf Hoff Hs. split.
  - intros p Hp sb'.
    destruct (insert_accepted_load sb s p Hwf Hs Hp) as (Hl & ->).
    destruct (insert_fields sb s) as (En & Est). fold sb' in Hl, En, Est.
    unfold reliable_sequence_buffer_exists, reliable_sequence_buffer_find.
    rewrite En, Est, Hl, Z.eqb_refl.
    split; [reflexivity|]. split; [reflexivity|]. split; [reflexivity|].
    apply slot_offset_defined; [exact Hwf | exact Hoff |].
    unfold is_u16 in Hs. lia.
  - unfold reliable_sequence_buffer_exists, reliable_sequence_buffer_find.
    intros ->. reflexivity.
Qed.

Lemma insert_then_find_witness :
  let sb := mk_sequence_buffer 3 4 8 [EMPTY; 1; 2; EMPTY] in
  reliable_sequence_buffer_find
    (fst (reliable_sequence_buffer_insert sb 5)) 5 = Some 8.
Proof.
  intros sb.
  assert (Hwf : wf sb) by (unfold wf, is_u16; simpl; lia).
  assert (Hoff : offsets_defined sb)
    by (unfold offsets_defined, INT_MAX; simpl; lia).
  assert (Hs : is_u16 5) by (unfold is_u16; lia).
  exact (proj1 (proj2 (proj1 (insert_then_find sb 5 Hwf Hoff Hs) 8 eq_refl))).
Defined.

(** ** Removal and lookup *)

(** C8. [remove s] writes the empty tag at slot [s % num_entries] whatever
    was there; afterwards [available s] is true and [exists s] is false;
    no other slot and no other field changes; and removing twice is the same
    as removing once. *)
Theorem remove_clears_slot sb s :
  wf sb -> is_u16 s ->
  let sb' := reliable_sequence_buffer_remove sb s in
  load (entry_sequence sb') (Z.rem s (num_entries sb)) = EMPTY /\
  reliable_sequence_buffer_available sb' s = true /\
  reliable_sequence_buffer_exists sb' s = false /\
  (forall i, i <> Z.rem s (num_entries sb) ->
     load (entry_sequence sb') i = load (entry_sequence sb) i) /\
  length (entry_sequence sb') = length (entry_sequence sb) /\
  sequence sb' = sequence sb /\ num_entries sb' = num_entries sb /\
  entry_stride sb' = entry_stride sb /\
  reliable_sequence_buffer_remove sb' s = sb'.
Proof.
  intros Hwf Hs sb'.
  assert (Hl : load (entry_sequence sb') (Z.rem s (num_entries sb)) = EMPTY).
  { simpl. apply load_store_eq, slot_in_bounds; [exact Hwf|].
    unfold is_u16 in Hs. lia. }
  unfold reliable_sequence_buffer_available, reliable_sequence_buffer_exists.
  replace (num_entries sb') with (num_entries sb) by reflexivity.
  rewrite Hl. repeat split.
  - unfold is_u16, EMPTY in *. apply Z.eqb_neq. lia.
  - intros i Hi. simpl. apply load_store_ne. auto.
  - simpl. apply length_store.
  - unfold sb', reliable_sequence_buffer_remove, with_entries. simpl.
    f_equal. unfold store. destruct (0 <=? Z.rem s (num_entries sb)); [|reflexivity].
    apply list_insert_insert_eq.
Qed.

Lemma remove_clears_slot_witness :
  let sb := mk_sequence_buffer 3 4 8 [EMPTY; 1; 2; EMPTY] in
  reliable_sequence_buffer_exists (reliable_sequence_buffer_remove sb 2) 2 = false /\
  reliable_sequence_buffer_remove (reliable_sequence_buffer_remove sb 2) 2 =
  reliable_sequence_buffer_remove sb 2.
Proof.
  intros sb.
  assert (Hwf : wf sb) by (unfold wf, is_u16; simpl; lia).
  assert (Hs : is_u16 2) by (unfold is_u16; lia).
  destruct (remove_clears_slot sb 2 Hwf Hs) as (_ & _ & H1 & _ & _ & _ & _ & _ & H2).
  split; assumption.
Defined.

(** C10. [exists s] and [available s] are never both true: a 16-bit
    sequence number widened to 32 bits is at most 65535 and so differs from
    the empty tag [0xFFFFFFFF]. *)
Theorem exists_available_exclusive sb s :
  is_u16 s ->
  reliable_sequence_buffer_exists sb s && reliable_sequence_buffer_available sb s
    = false.
Proof.
  intros Hs. unfold reliable_sequence_buffer_exists,
    reliable_sequence_buffer_available, is_u16, EMPTY in *.
  case_cmp; simpl; try reflexivity. lia.
Qed.

Lemma exists_available_exclusive_witness :
  let sb := mk_sequence_buffer 3 4 8 [EMPTY; 1; 2; EMPTY] in
  reliable_sequence_buffer_exists sb 65535 &&
  reliable_sequence_buffer_available sb 65535 = false.
Proof.
  intros sb. apply (exists_available_exclusive sb 65535). unfold is_u16. lia.
Defined.

(** ** The tag discipline *)

Lemma remove_entries_cases sb start finish j :
  let sb' := reliable_sequence_buffer_remove_entries sb start finish in
  load (entry_sequence sb') j = EMPTY \/
  load (entry_sequence sb') j = load (entry_sequence sb) j.
Proof.
  unfold reliable_sequence_buffer_remove_entries.
  destruct (_ <? num_entries sb); simpl;
    [apply clear_sequences_cases | apply clear_indices_cases].
Qed.

Lemma slots_consistent_cleared sb sb' :
  num_entries sb' = num_entries sb ->
  (forall j, load (entry_sequence sb') j = EMPTY \/
             load (entry_sequence sb') j = load (entry_sequence sb) j) ->
  slots_consistent sb -> slots_consistent sb'.
Proof.
  intros En Hc H i Hi. rewrite En in *.
  destruct (Hc i) as [E|E]; [auto|]. rewrite E. apply H, Hi.
Qed.

Lemma slots_consistent_insert_slot sb s :
  wf sb -> is_u16 s -> slots_consistent sb ->
  slots_consistent (fst (insert_slot sb s)).
Proof.
  intros Hwf Hs H i Hi. simpl in *. rewrite load_store.
  destruct ((Z.rem s (num_entries sb) =? i) && _ && _) eqn:E.
  - right. apply andb_true_iff in E as [E _]. apply andb_true_iff in E as [E _].
    apply Z.eqb_eq in E. unfold is_u16 in Hs. split; [lia | exact E].
  - apply H, Hi.
Qed.

Lemma slots_consistent_with_sequence sb q :
  slots_consistent sb -> slots_consistent (with_sequence sb q).
Proof. intros H i Hi. exact (H i Hi). Qed.

Lemma slots_consistent_insert sb s :
  wf sb -> is_u16 s -> slots_consistent sb ->
  slots_consistent (fst (reliable_sequence_buffer_insert sb s)).
Proof.
  intros Hwf Hs H. unfold reliable_sequence_buffer_insert.
  destruct (reliable_sequence_greater_than _ _).
  - apply slots_consistent_insert_slot; [|exact Hs|].
    + destruct (remove_entries_wf sb (sequence sb) s Hwf) as (Hn & Hlen & _).
      unfold wf. simpl. split; [exact Hn|]. split; [exact Hlen|]. apply u16_range.
    + apply slots_consistent_with_sequence.
      apply (slots_consistent_cleared sb); [apply remove_entries_fields | | exact H].
      intros j. apply remove_entries_cases.
  - destruct (reliable_sequence_less_than _ _); [exact H|].
    apply slots_consistent_insert_slot; assumption.
Qed.

Lemma reachable_consistent sb : reachable sb -> slots_consistent sb.
Proof.
  induction 1 as [mem n stride sb Hc | sb s Hr IH Hs | sb s Hr IH Hs
                 | sb start finish Hr IH Hd].
  - apply create_wf in Hc. destruct Hc as ((Hn & _) & _).
    intros i Hi. left. simpl in *. rewrite EMPTY_bytes.
    apply load_replicate. lia.
  - apply slots_consistent_insert; [apply reachable_wf | |]; assumption.
  - apply (slots_consistent_cleared sb); [reflexivity | | exact IH].
    intros j. simpl. apply load_store_cases.
  - apply (slots_consistent_cleared sb); [apply remove_entries_fields | | exact IH].
    intros j. apply remove_entries_cases.
Qed.

(** C9. In every state reached from a reset buffer by [insert], [remove]
    and [remove_entries], each slot [i] holds the empty tag or a value
    [v <= 65535] with [v % num_entries = i]; hence when [exists s] is true,
    the slot [s % num_entries] holds [s] and no other slot does. *)
Theorem reachable_slots_consistent sb :
  reachable sb ->
  slots_consistent sb /\
  (forall s, is_u16 s -> reliable_sequence_buffer_exists sb s = true ->
     load (entry_sequence sb) (Z.rem s (num_entries sb)) = s /\
     forall i, 0 <= i < num_entries sb ->
       load (entry_sequence sb) i = s -> i = Z.rem s (num_entries sb)).
Proof.
  intros Hr. pose proof (reachable_consistent sb Hr) as Hc.
  split; [exact Hc|]. intros s Hs He.
  unfold reliable_sequence_buffer_exists in He. apply Z.eqb_eq in He.
  split; [exact He|]. intros i Hi Hl.
  destruct (Hc i Hi) as [E|(_ & E)].
  - unfold is_u16, EMPTY in *. lia.
  - rewrite Hl in E. auto.
Qed.

Lemma reachable_slots_consistent_witness :
  slots_consistent
    (fst (reliable_sequence_buffer_insert
            (reliable_sequence_buffer_reset (mk_sequence_buffer 0 4 8 [7; 7; 7; 7]))
            5)).
Proof.
  apply reachable_slots_consistent.
  apply reach_insert; [|unfold is_u16; lia].
  apply (reach_reset (fun _ => 7) 4 8). reflexivity.
Defined.

(** ** Eviction when the window advances *)

Lemma exists_spec sb t :
  reliable_sequence_buffer_exists sb t = true <->
  load (entry_sequence sb) (Z.rem t (num_entries sb)) = t.
Proof. unfold reliable_sequence_buffer_exists. apply Z.eqb_eq. Qed.

Lemma exists_insert_slot sb s t :
  wf sb -> is_u16 s ->
  reliable_sequence_buffer_exists (fst (insert_slot sb s)) t = true ->
  t = s \/
  (Z.rem t (num_entries sb) <> Z.rem s (num_entries sb) /\
   reliable_sequence_buffer_exists sb t = true).
Proof.
  intros Hwf Hs. rewrite !exists_spec. simpl.
  destruct (Z.eq_dec (Z.rem t (num_entries sb)) (Z.rem s (num_entries sb)))
    as [E|E].
  - rewrite E, load_store_eq; [auto|].
    apply slot_in_bounds; [exact Hwf | unfold is_u16 in Hs; lia].
  - rewrite load_store_ne by auto. auto.
Qed.

Lemma exists_remove_entries sb start finish t :
  is_u16 t ->
  reliable_sequence_buffer_exists
    (reliable_sequence_buffer_remove_entries sb start finish) t = true ->
  reliable_sequence_buffer_exists sb t = true.
Proof.
  intros Ht. rewrite !exists_spec.
  destruct (remove_entries_fields sb start finish) as (_ & -> & _).
  destruct (remove_entries_cases sb start finish (Z.rem t (num_entries sb)))
    as [E|E]; rewrite E; [|auto].
  unfold is_u16, EMPTY in *. lia.
Qed.

Lemma exists_remove sb s t :
  is_u16 t ->
  reliable_sequence_buffer_exists (reliable_sequence_buffer_remove sb s) t = true ->
  reliable_sequence_buffer_exists sb t = true.
Proof.
  intros Ht. rewrite !exists_spec. simpl.
  destruct (load_store_cases (entry_sequence sb) (Z.rem s (num_entries sb))
              (Z.rem t (num_entries sb)) EMPTY) as [E|E]; rewrite E; [|auto].
  unfold is_u16, EMPTY in *. lia.
Qed.

(** Whichever loop runs, the slot of every sequence of the linearized range
    is empty afterwards. *)
Lemma remove_entries_hit sb start finish q :
  wf sb -> 0 <= start ->
  start <= q <= (if finish <? start then finish + 65535 else finish) ->
  load (entry_sequence (reliable_sequence_buffer_remove_entries sb start finish))
       (q mod num_entries sb) = EMPTY.
Proof.
  intros (Hn & Hlen & _) Hs Hq.
  unfold reliable_sequence_buffer_remove_entries.
  set (finish' := if finish <? start then finish + 65535 else finish) in *.
  destruct (finish' - start <? num_entries sb); simpl.
  - apply clear_sequences_hit; lia.
  - rewrite <- Hlen, Nat2Z.id, clear_indices_all. apply load_replicate.
    rewrite Hlen. apply Z.mod_pos_bound. lia.
Qed.

Lemma insert_advance_unfold sb s :
  reliable_sequence_greater_than (u16 (s + 1)) (sequence sb) = true ->
  reliable_sequence_buffer_insert sb s =
  insert_slot
    (with_sequence (reliable_sequence_buffer_remove_entries sb (sequence sb) s)
       (u16 (s + 1))) s.
Proof. intros H. unfold reliable_sequence_buffer_insert. rewrite H. reflexivity. Qed.

Lemma advance_wf sb s :
  wf sb ->
  wf (with_sequence (reliable_sequence_buffer_remove_entries sb (sequence sb) s)
        (u16 (s + 1))).
Proof.
  intros Hwf.
  destruct (remove_entries_wf sb (sequence sb) s Hwf) as (Hn & Hlen & _).
  unfold wf. simpl. split; [exact Hn|]. split; [exact Hlen|]. apply u16_range.
Qed.

(** What can still exist after an advancing insert: the inserted sequence,
    or a sequence that existed before and whose slot no sequence of the
    linearized range shares. *)
Lemma insert_advance_exists sb s t :
  wf sb -> is_u16 s -> is_u16 t ->
  reliable_sequence_greater_than (u16 (s + 1)) (sequence sb) = true ->
  reliable_sequence_buffer_exists
    (fst (reliable_sequence_buffer_insert sb s)) t = true ->
  t = s \/
  (reliable_sequence_buffer_exists sb t = true /\
   forall q,
     sequence sb <= q <= (if s <? sequence sb then s + 65535 else s) ->
     q mod num_entries sb <> t mod num_entries sb).
Proof.
  intros Hwf Hs Ht Hgt. rewrite insert_advance_unfold by exact Hgt.
  intros He. apply exists_insert_slot in He; [| apply advance_wf, Hwf | exact Hs].
  destruct He as [E|(_ & He)]; [auto|]. right.
  change (reliable_sequence_buffer_exists
            (reliable_sequence_buffer_remove_entries sb (sequence sb) s) t = true)
    in He.
  split; [apply (exists_remove_entries sb (sequence sb) s t Ht He)|].
  intros q Hq Hmod. apply exists_spec in He.
  destruct (remove_entries_fields sb (sequence sb) s) as (_ & En & _).
  rewrite En in He. destruct Hwf as (Hn & Hlen & Hseq).
  rewrite rem_mod in He by (unfold is_u16 in Ht; lia).
  rewrite <- Hmod in He.
  rewrite remove_entries_hit in He;
    [| unfold wf; auto | unfold is_u16 in Hseq; lia | exact Hq].
  unfold is_u16, EMPTY in *. lia.
Qed.

(** The largest multiple of the capacity that is at most 65536. *)
Lemma largest_multiple n :
  0 < n <= 65536 ->
  32768 <= 65536 / n * n <= 65536 /\
  forall t, (65536 / n * n + t) mod n = t mod n.
Proof.
  intros Hn. split.
  - pose proof (Z.div_mod 65536 n ltac:(lia)) as Hd.
    pose proof (Z.mod_pos_bound 65536 n ltac:(lia)) as Hm.
    assert (H1 : 1 <= 65536 / n) by (apply Z.div_le_lower_bound; lia).
    destruct (Z.le_gt_cases n 32768); nia.
  - intros t. rewrite Z.add_comm. apply Z.mod_add. lia.
Qed.

Lemma window_bounded_insert sb s :
  wf sb -> num_entries sb <= 65536 -> is_u16 s ->
  window_bounded sb ->
  window_bounded (fst (reliable_sequence_buffer_insert sb s)).
Proof.
  intros Hwf Hcap Hs Hw t Ht He.
  destruct (insert_fields sb s) as (En & _). rewrite En.
  pose proof Hwf as (Hn & Hlen & Hseq).
  destruct (largest_multiple (num_entries sb) ltac:(lia)) as (HQ & HQmod).
  set (Q := 65536 / num_entries sb * num_entries sb) in *.
  unfold is_u16 in Hs, Ht, Hseq.
  destruct (reliable_sequence_greater_than (u16 (s + 1)) (sequence sb)) eqn:Hgt.
  - (* the window advances *)
    pose proof (insert_advance_exists sb s t Hwf Hs Ht Hgt He) as Hex.
    rewrite insert_advance_unfold by exact Hgt. simpl.
    apply greater_than_spec in Hgt. unfold u16 in *.
    destruct (Z.eq_dec s 65535) as [->|Hs'].
    { change ((65535 + 1) mod 65536) with 0. lia. }
    rewrite Z.mod_small in * by lia.
    destruct Hex as [->|(Hold & Hmiss)]; [lia|].
    specialize (Hw t Ht Hold). fold Q in Hw.
    destruct (Z.ltb_spec s (sequence sb)); [lia|].
    destruct (Z.le_gt_cases (s + 1) (Q + t)) as [|Hgt']; [assumption|].
    exfalso. apply (Hmiss (Q + t)); [lia | apply HQmod].
  - unfold reliable_sequence_buffer_insert in *. rewrite Hgt in *.
    destruct (reliable_sequence_less_than s _) eqn:Hlt.
    + (* rejected *) apply Hw; assumption.
    + (* inside the window *)
      apply exists_insert_slot in He; [|exact Hwf|exact Hs].
      simpl. fold Q. destruct He as [->|(_ & Hold)].
      * unfold reliable_sequence_less_than in Hlt.
        apply greater_than_false in Hgt, Hlt. unfold u16 in *.
        destruct (Z.le_gt_cases (sequence sb) (Q + s)) as [|Hbig]; [assumption|].
        exfalso.
        assert (num_entries sb <= Q).
        { unfold Q. assert (1 <= 65536 / num_entries sb)
            by (apply Z.div_le_lower_bound; lia). nia. }
        rewrite (Z.mod_small (s + 1)) in Hgt by lia.
        rewrite (Z.mod_small (sequence sb - num_entries sb)) in Hlt by lia.
        lia.
      * specialize (Hw t Ht Hold). exact Hw.
Qed.

Lemma reachable_window_bounded sb :
  reachable sb -> num_entries sb <= 65536 -> window_bounded sb.
Proof.
  induction 1 as [mem n stride sb Hc | sb s Hr IH Hs | sb s Hr IH Hs
                 | sb start finish Hr IH Hd]; intros Hcap.
  - apply create_wf in Hc. destruct Hc as ((Hn & _) & _).
    intros t Ht He. exfalso.
    destruct (reset_all_available sb t Hn ltac:(unfold is_u16 in Ht; lia))
      as (_ & Hne).
    rewrite (Hne Ht) in He. discriminate.
  - destruct (insert_fields sb s) as (En & _). rewrite En in Hcap.
    apply window_bounded_insert; auto using reachable_wf.
  - intros t Ht He. apply exists_remove in He; [|exact Ht].
    exact (IH Hcap t Ht He).
  - destruct (remove_entries_fields sb start finish) as (Eq & En & _).
    rewrite En in Hcap.
    intros t Ht He. rewrite Eq, En.
    apply exists_remove_entries in He; [|exact Ht]. exact (IH Hcap t Ht He).
Qed.

Lemma insert_advance_sequence sb s :
  reliable_sequence_greater_than (u16 (s + 1)) (sequence sb) = true ->
  sequence (fst (reliable_sequence_buffer_insert sb s)) = u16 (s + 1).
Proof. intros H. rewrite insert_advance_unfold by exact H. reflexivity. Qed.

Lemma insert_advance_exists_self sb s :
  wf sb -> is_u16 s ->
  reliable_sequence_greater_than (u16 (s + 1)) (sequence sb) = true ->
  reliable_sequence_buffer_exists (fst (reliable_sequence_buffer_insert sb s)) s
    = true.
Proof.
  intros Hwf Hs Hgt. rewrite insert_advance_unfold by exact Hgt.
  apply exists_spec.
  assert (H0 : 0 <= s) by (unfold is_u16 in Hs; lia).
  exact (insert_slot_load _ s (advance_wf sb s Hwf) H0).
Qed.

(** An entry survives an advancing insert that runs the first loop when no
    sequence of the linearized range, nor the inserted one, shares its
    slot. *)
Lemma insert_advance_keeps sb s t :
  wf sb -> is_u16 s -> is_u16 t ->
  reliable_sequence_greater_than (u16 (s + 1)) (sequence sb) = true ->
  (if s <? sequence sb then s + 65535 else s) - sequence sb < num_entries sb ->
  t mod num_entries sb <> s mod num_entries sb ->
  (forall q,
     sequence sb <= q <= (if s <? sequence sb then s + 65535 else s) ->
     q mod num_entries sb <> t mod num_entries sb) ->
  reliable_sequence_buffer_exists sb t = true ->
  reliable_sequence_buffer_exists (fst (reliable_sequence_buffer_insert sb s)) t
    = true.
Proof.
  intros (Hn & Hlen & Hseq) Hs Ht Hgt Hspan Hslot Hmiss He.
  unfold is_u16 in *.
  rewrite insert_advance_unfold by exact Hgt.
  rewrite exists_spec in *. simpl.
  destruct (remove_entries_fields sb (sequence sb) s) as (_ & -> & _).
  rewrite !rem_mod in * by lia. rewrite load_store_ne by auto.
  unfold reliable_sequence_buffer_remove_entries.
  set (finish' := if s <? sequence sb then s + 65535 else s) in *.
  destruct (Z.ltb_spec (finish' - sequence sb) (num_entries sb)); [|lia].
  simpl. rewrite clear_sequences_miss; [exact He | lia | lia |].
  intros q Hq. apply Hmiss. lia.
Qed.

(** C3. In a state reachable from reset of a buffer whose capacity is at
    most 65536, inserting [s] with [s + 1] more recent than [sequence] sets
    [sequence] to [s + 1] (mod 2^16), and afterwards no [t] other than [s] of
    the cyclic inclusive range from the old [sequence] to [s] exists.  In a
    buffer of capacity 32, after inserting 0..31 all of them exist, and
    inserting 32 then makes [exists 0] false and [exists 32] true. *)
Theorem insert_advance_evicts :
  (forall sb s t,
     reachable sb -> num_entries sb <= 65536 -> is_u16 s -> is_u16 t ->
     reliable_sequence_greater_than (u16 (s + 1)) (sequence sb) = true ->
     let sb' := fst (reliable_sequence_buffer_insert sb s) in
     sequence sb' = u16 (s + 1) /\
     (in_cyclic_range (sequence sb) s t -> t <> s ->
      reliable_sequence_buffer_exists sb' t = false)) /\
  (forall mem stride sb0,
     reliable_sequence_buffer_create mem 32 stride = Some sb0 ->
     let sb32 :=
       insert_all (reliable_sequence_buffer_reset sb0) (first_sequences 32) in
     let sb33 := fst (reliable_sequence_buffer_insert sb32 32) in
     forallb (reliable_sequence_buffer_exists sb32) (first_sequences 32) = true /\
     reliable_sequence_buffer_exists sb33 0 = false /\
     reliable_sequence_buffer_exists sb33 32 = true).
Proof.
  split.
  - intros sb s t Hr Hcap Hs Ht Hgt sb'.
    split; [apply insert_advance_sequence, Hgt|].
    intros Hrange Hne.
    destruct (reliable_sequence_buffer_exists sb' t) eqn:He; [exfalso|reflexivity].
    pose proof (reachable_wf sb Hr) as Hwf.
    destruct (insert_advance_exists sb s t Hwf Hs Ht Hgt He) as [E|(Hold & Hmiss)];
      [contradiction|].
    pose proof (reachable_window_bounded sb Hr Hcap t Ht Hold) as Hw.
    destruct Hwf as (Hn & _ & Hseq).
    destruct (largest_multiple (num_entries sb) ltac:(lia)) as (HQ & HQmod).
    unfold in_cyclic_range, is_u16 in *.
    destruct (Z.leb_spec (sequence sb) s) as [Hle|Hwrap].
    + destruct (Z.ltb_spec s (sequence sb)); [lia|].
      apply (Hmiss t); [lia | reflexivity].
    + destruct (Z.ltb_spec s (sequence sb)); [|lia].
      destruct Hrange as [Hhigh|Hlow].
      * apply (Hmiss t); [lia | reflexivity].
      * apply (Hmiss (65536 / num_entries sb * num_entries sb + t));
          [lia | apply HQmod].
  - intros mem stride sb0 Hc. apply create_wf in Hc as Hf.
    unfold reliable_sequence_buffer_create in Hc.
    destruct ((32 >? 0) && (stride >? 0)); [|discriminate].
    injection Hc as <-. vm_compute. auto.
Qed.

Lemma insert_advance_evicts_witness :
  let sb :=
    fst (reliable_sequence_buffer_insert
           (reliable_sequence_buffer_reset (mk_sequence_buffer 0 4 8 [7; 7; 7; 7]))
           65534) in
  sequence (fst (reliable_sequence_buffer_insert sb 1)) = 2 /\
  reliable_sequence_buffer_exists
    (fst (reliable_sequence_buffer_insert sb 1)) 0 = false.
Proof.
  intros sb.
  assert (Hr : reachable sb).
  { apply reach_insert; [|unfold is_u16; lia].
    apply (reach_reset (fun _ => 7) 4 8). reflexivity. }
  assert (Hcap : num_entries sb <= 65536) by (simpl; lia).
  assert (Hs : is_u16 1) by (unfold is_u16; lia).
  assert (Ht : is_u16 0) by (unfold is_u16; lia).
  destruct (proj1 insert_advance_evicts sb 1 0 Hr Hcap Hs Ht eq_refl)
    as (Hseq & H).
  split; [exact Hseq|].
  apply H; [|lia]. unfold in_cyclic_range. simpl. lia.
Defined.

(** C3 as stated, for every capacity, fails.  With
    65537 slots, after inserting 0, 32768 and 40000 the buffer has
    [sequence = 40001] and sequence 0 exists in slot 0.  Inserting 1 then
    clears the slots of 40001 .. 65536, which are the slots 40001 .. 65536,
    and slot 0 keeps its tag although 0 lies in the cyclic range from 40001
    to 1. *)
Lemma insert_advance_evicts_counterexample :
  ~ (forall sb s t,
       reachable sb -> is_u16 s -> is_u16 t ->
       reliable_sequence_greater_than (u16 (s + 1)) (sequence sb) = true ->
       in_cyclic_range (sequence sb) s t -> t <> s ->
       reliable_sequence_buffer_exists sb t = true ->
       reliable_sequence_buffer_exists
         (fst (reliable_sequence_buffer_insert sb s)) t = false).
Proof.
  intros Hclaim.
  pose (c := mk_sequence_buffer 0 65537 1
               (map (fun _ : nat => 0) (seq 0 (Z.to_nat 65537)))).
  pose (sb0 := reliable_sequence_buffer_reset c).
  pose (sb1 := fst (reliable_sequence_buffer_insert sb0 0)).
  pose (sb2 := fst (reliable_sequence_buffer_insert sb1 32768)).
  pose (sb3 := fst (reliable_sequence_buffer_insert sb2 40000)).
  assert (U0 : is_u16 0) by (unfold is_u16; lia).
  assert (U1 : is_u16 1) by (unfold is_u16; lia).
  assert (U2 : is_u16 32768) by (unfold is_u16; lia).
  assert (U3 : is_u16 40000) by (unfold is_u16; lia).
  assert (R0 : reachable sb0)
    by (apply (reach_reset (fun _ => 0) 65537 1 c); reflexivity).
  assert (R1 : reachable sb1) by (apply reach_insert; assumption).
  assert (R2 : reachable sb2) by (apply reach_insert; assumption).
  assert (R3 : reachable sb3) by (apply reach_insert; assumption).
  assert (N0 : num_entries sb0 = 65537) by reflexivity.
  assert (N1 : num_entries sb1 = 65537)
    by (unfold sb1; rewrite (proj1 (insert_fields sb0 0)); exact N0).
  assert (N2 : num_entries sb2 = 65537)
    by (unfold sb2; rewrite (proj1 (insert_fields sb1 32768)); exact N1).
  assert (N3 : num_entries sb3 = 65537)
    by (unfold sb3; rewrite (proj1 (insert_fields sb2 40000)); exact N2).
  assert (Q0 : sequence sb0 = 0) by reflexivity.
  assert (G0 : reliable_sequence_greater_than (u16 (0 + 1)) (sequence sb0) = true)
    by (rewrite Q0; reflexivity).
  assert (Q1 : sequence sb1 = 1)
    by (unfold sb1; rewrite insert_advance_sequence by exact G0; reflexivity).
  assert (G1 : reliable_sequence_greater_than (u16 (32768 + 1)) (sequence sb1) = true)
    by (rewrite Q1; reflexivity).
  assert (Q2 : sequence sb2 = 32769)
    by (unfold sb2; rewrite insert_advance_sequence by exact G1; reflexivity).
  assert (G2 : reliable_sequence_greater_than (u16 (40000 + 1)) (sequence sb2) = true)
    by (rewrite Q2; reflexivity).
  assert (Q3 : sequence sb3 = 40001)
    by (unfold sb3; rewrite insert_advance_sequence by exact G2; reflexivity).
  assert (G3 : reliable_sequence_greater_than (u16 (1 + 1)) (sequence sb3) = true)
    by (rewrite Q3; reflexivity).
  assert (E1 : reliable_sequence_buffer_exists sb1 0 = true)
    by exact (insert_advance_exists_self sb0 0 (reachable_wf _ R0) U0 G0).
  assert (E2 : reliable_sequence_buffer_exists sb2 0 = true).
  { apply (insert_advance_keeps sb1 32768 0 (reachable_wf _ R1) U2 U0 G1);
      rewrite ?N1, ?Q1; [reflexivity | discriminate | | exact E1].
    intros q Hq. change (1 <= q <= 32768) in Hq.
    rewrite !Z.mod_small by lia. lia. }
  assert (E3 : reliable_sequence_buffer_exists sb3 0 = true).
  { apply (insert_advance_keeps sb2 40000 0 (reachable_wf _ R2) U3 U0 G2);
      rewrite ?N2, ?Q2; [reflexivity | discriminate | | exact E2].
    intros q Hq. change (32769 <= q <= 40000) in Hq.
    rewrite !Z.mod_small by lia. lia. }
  assert (E4 : reliable_sequence_buffer_exists
                 (fst (reliable_sequence_buffer_insert sb3 1)) 0 = true).
  { apply (insert_advance_keeps sb3 1 0 (reachable_wf _ R3) U1 U0 G3);
      rewrite ?N3, ?Q3; [reflexivity | discriminate | | exact E3].
    intros q Hq. change (40001 <= q <= 65536) in Hq.
    rewrite !Z.mod_small by lia. lia. }
  assert (Hrange : in_cyclic_range (sequence sb3) 1 0)
    by (rewrite Q3; unfold in_cyclic_range; simpl; lia).
  rewrite (Hclaim sb3 1 0 R3 U1 U0 G3 Hrange ltac:(lia) E3) in E4.
  discriminate.
Qed.

(** ** Sequence arithmetic as a cyclic distance *)

Lemma u16_diff a b :
  is_u16 a -> is_u16 b ->
  u16 (a - b) = if b <=? a then a - b else a - b + 65536.
Proof.
  unfold is_u16, u16. intros Ha Hb. destruct (Z.leb_spec b a).
  - apply Z.mod_small. lia.
  - rewrite <- (Z.mod_add (a - b) 1 65536) by lia. apply Z.mod_small. lia.
Qed.

Lemma u16_sub_l x y : u16 (u16 x - y) = u16 (x - y).
Proof. unfold u16. apply Zminus_mod_idemp_l. Qed.

Lemma u16_sub_r x y : u16 (x - u16 y) = u16 (x - y).
Proof. unfold u16. apply Zminus_mod_idemp_r. Qed.

Lemma greater_than_distance a b :
  is_u16 a -> is_u16 b ->
  reliable_sequence_greater_than a b = true <->
  1 <= u16 (a - b) <= 32767 \/ (u16 (a - b) = 32768 /\ b < a).
Proof.
  intros Ha Hb. rewrite greater_than_spec, u16_diff by assumption.
  unfold is_u16 in *. destruct (Z.leb_spec b a); lia.
Qed.

Lemma greater_than_no_tie a b :
  is_u16 a -> is_u16 b -> u16 (a - b) <> 32768 ->
  reliable_sequence_greater_than a b = (1 <=? u16 (a - b)) && (u16 (a - b) <=? 32767).
Proof.
  intros Ha Hb Hne.
  pose proof (greater_than_distance a b Ha Hb) as H.
  destruct (reliable_sequence_greater_than a b);
    destruct (Z.leb_spec 1 (u16 (a - b))), (Z.leb_spec (u16 (a - b)) 32767);
    simpl; try reflexivity; exfalso.
  - destruct (proj1 H eq_refl); lia.
  - destruct (proj1 H eq_refl); lia.
  - destruct (proj1 H eq_refl); lia.
  - assert (true = false) by (symmetry; apply H; lia). discriminate.
Qed.

(** X1. On 16-bit numbers [greater_than a b] is a test on the forward cyclic
    distance [(a - b) mod 65536]: true when the distance is 1 .. 32767, false
    when it is 0 or above 32768, and at exactly 32768 true for the
    numerically larger argument; [less_than] is the same test with the
    arguments exchanged. *)
Theorem greater_than_cyclic_distance a b :
  is_u16 a -> is_u16 b ->
  (reliable_sequence_greater_than a b = true <->
   1 <= u16 (a - b) <= 32767 \/ (u16 (a - b) = 32768 /\ b < a)) /\
  (reliable_sequence_less_than a b = true <->
   1 <= u16 (b - a) <= 32767 \/ (u16 (b - a) = 32768 /\ a < b)).
Proof.
  intros Ha Hb. split; [|unfold reliable_sequence_less_than];
    apply greater_than_distance; assumption.
Qed.

Lemma greater_than_cyclic_distance_witness :
  reliable_sequence_greater_than 5 65530 = true.
Proof.
  assert (Ha : is_u16 5) by (unfold is_u16; lia).
  assert (Hb : is_u16 65530) by (unfold is_u16; lia).
  apply (proj1 (greater_than_cyclic_distance 5 65530 Ha Hb)).
  left. change (u16 (5 - 65530)) with 11. lia.
Defined.

Lemma greater_than_succ a :
  is_u16 a -> reliable_sequence_greater_than (u16 (a + 1)) a = true.
Proof.
  intros Ha. apply greater_than_distance; [apply u16_range | exact Ha |].
  left. rewrite u16_sub_l. replace (a + 1 - a) with 1 by lia.
  change (u16 1) with 1. lia.
Qed.

(** X2. The successor of a sequence number, wrapping from 65535 to 0, is
    always more recent than the number itself, and the number is older than
    its successor. *)
Theorem successor_more_recent a :
  is_u16 a ->
  reliable_sequence_greater_than (u16 (a + 1)) a = true /\
  reliable_sequence_greater_than a (u16 (a + 1)) = false /\
  reliable_sequence_less_than a (u16 (a + 1)) = true.
Proof.
  intros Ha. pose proof (greater_than_succ a Ha) as H.
  split; [exact H|]. split; [|exact H].
  apply greater_than_false. apply greater_than_spec in H. lia.
Qed.

Lemma successor_more_recent_witness :
  reliable_sequence_greater_than 0 65535 = true.
Proof.
  assert (Ha : is_u16 65535) by (unfold is_u16; lia).
  exact (proj1 (successor_more_recent 65535 Ha)).
Defined.

(** X3. The comparison is not transitive: every sequence number [a] lies
    on a cycle [a < a + 30000 < a + 60000 < a] (all mod 65536). *)
Theorem greater_than_cycle a :
  is_u16 a ->
  reliable_sequence_greater_than (u16 (a + 30000)) a = true /\
  reliable_sequence_greater_than (u16 (a + 60000)) (u16 (a + 30000)) = true /\
  reliable_sequence_greater_than a (u16 (a + 60000)) = true.
Proof.
  intros Ha. repeat split; apply greater_than_distance;
    try apply u16_range; try exact Ha; left.
  - rewrite u16_sub_l. replace (a + 30000 - a) with 30000 by lia.
    change (u16 30000) with 30000. lia.
  - rewrite u16_sub_l, u16_sub_r.
    replace (a + 60000 - (a + 30000)) with 30000 by lia.
    change (u16 30000) with 30000. lia.
  - rewrite u16_sub_r. replace (a - (a + 60000)) with (-60000) by lia.
    change (u16 (-60000)) with 5536. lia.
Qed.

Lemma greater_than_cycle_witness :
  reliable_sequence_greater_than 30000 0 = true /\
  reliable_sequence_greater_than 60000 30000 = true /\
  reliable_sequence_greater_than 0 60000 = true.
Proof.
  assert (Ha : is_u16 0) by (unfold is_u16; lia).
  exact (greater_than_cycle 0 Ha).
Defined.

(** X4. Away from the half-window tie the comparison only depends on the
    cyclic distance: adding the same offset to both numbers (mod 65536) does
    not change the result. *)
Theorem greater_than_shift a b k :
  is_u16 a -> is_u16 b -> u16 (a - b) <> 32768 ->
  reliable_sequence_greater_than (u16 (a + k)) (u16 (b + k)) =
  reliable_sequence_greater_than a b.
Proof.
  intros Ha Hb Hne.
  assert (E : u16 (u16 (a + k) - u16 (b + k)) = u16 (a - b)).
  { rewrite u16_sub_l, u16_sub_r. f_equal. lia. }
  rewrite (greater_than_no_tie a b Ha Hb Hne).
  rewrite greater_than_no_tie; try apply u16_range; rewrite E; auto.
Qed.

Lemma greater_than_shift_witness :
  reliable_sequence_greater_than (u16 (65000 + 1000)) (u16 (64000 + 1000)) =
  reliable_sequence_greater_than 65000 64000.
Proof.
  apply greater_than_shift; unfold is_u16; try lia.
  change (u16 (65000 - 64000)) with 1000. lia.
Defined.

(** ** Reset, raw slot access and how the operations compose *)

Lemma find_spec sb s p :
  reliable_sequence_buffer_find sb s = Some p <->
  reliable_sequence_buffer_exists sb s = true /\
  p = Z.rem s (num_entries sb) * entry_stride sb.
Proof.
  unfold reliable_sequence_buffer_find, reliable_sequence_buffer_exists.
  destruct (_ =? s); split.
  - intros [= <-]. auto.
  - intros (_ & ->). reflexivity.
  - discriminate.
  - intros (H & _). discriminate.
Qed.

(** X5. [reset] empties the buffer whatever it held: [sequence] is 0, every
    sequence number is available, none exists or is found, every slot index
    reads as unoccupied; resetting again changes nothing, and resetting
    after an insert or a removal gives the same buffer as resetting
    before it. *)
Theorem reset_empties sb :
  0 < num_entries sb ->
  let sb' := reliable_sequence_buffer_reset sb in
  sequence sb' = 0 /\
  (forall s, is_u16 s ->
     reliable_sequence_buffer_available sb' s = true /\
     reliable_sequence_buffer_exists sb' s = false /\
     reliable_sequence_buffer_find sb' s = None) /\
  (forall i, 0 <= i < num_entries sb ->
     reliable_sequence_buffer_at_index sb' i = Some None) /\
  reliable_sequence_buffer_reset sb' = sb' /\
  (forall s, reliable_sequence_buffer_reset
               (fst (reliable_sequence_buffer_insert sb s)) = sb') /\
  (forall s, reliable_sequence_buffer_reset
               (reliable_sequence_buffer_remove sb s) = sb') /\
  (forall a b, reliable_sequence_buffer_reset
                 (reliable_sequence_buffer_remove_entries sb a b) = sb').
Proof.
  intros Hn sb'. split; [reflexivity|]. split; [|split; [|split; [|split; [|split]]]].
  - intros s Hs.
    destruct (reset_all_available sb s Hn ltac:(unfold is_u16 in Hs; lia))
      as (Ha & He).
    fold sb' in Ha, He. specialize (He Hs). repeat split; try assumption.
    unfold reliable_sequence_buffer_find.
    unfold reliable_sequence_buffer_exists in He. rewrite He. reflexivity.
  - intros i Hi. unfold reliable_sequence_buffer_at_index.
    replace (num_entries sb') with (num_entries sb) by reflexivity.
    rewrite Z.geb_leb.
    destruct (Z.leb_spec 0 i), (Z.ltb_spec i (num_entries sb)); try lia.
    simpl. rewrite EMPTY_bytes, load_replicate by lia.
    rewrite Z.eqb_refl. reflexivity.
  - reflexivity.
  - intros s. unfold reliable_sequence_buffer_reset.
    destruct (insert_fields sb s) as (-> & ->). reflexivity.
  - reflexivity.
  - intros a b. unfold reliable_sequence_buffer_reset.
    destruct (remove_entries_fields sb a b) as (_ & -> & -> & _). reflexivity.
Qed.

Lemma reset_empties_witness :
  let sb := mk_sequence_buffer 3 4 8 [EMPTY; 1; 2; 7] in
  reliable_sequence_buffer_exists (reliable_sequence_buffer_reset sb) 2 = false /\
  reliable_sequence_buffer_at_index (reliable_sequence_buffer_reset sb) 3
    = Some None.
Proof.
  intros sb. assert (Hn : 0 < num_entries sb) by (simpl; lia).
  destruct (reset_empties sb Hn) as (_ & Hs & Hi & _).
  split.
  - apply Hs. unfold is_u16. lia.
  - apply Hi. simpl. lia.
Defined.

(** X6. In a reachable state, [at_index i] for a valid index [i] returns a
    payload address exactly when some sequence number with slot [i] exists,
    and then [find] of that sequence number returns the same address; it
    returns [NULL] exactly when no sequence number with slot [i] exists. *)
Theorem at_index_agrees_with_find sb i :
  reachable sb -> 0 <= i < num_entries sb ->
  (forall p,
     reliable_sequence_buffer_at_index sb i = Some (Some p) <->
     exists s, is_u16 s /\ Z.rem s (num_entries sb) = i /\
               reliable_sequence_buffer_find sb s = Some p) /\
  (reliable_sequence_buffer_at_index sb i = Some None <->
   forall s, is_u16 s -> Z.rem s (num_entries sb) = i ->
             reliable_sequence_buffer_exists sb s = false).
Proof.
  intros Hr Hi. pose proof (reachable_consistent sb Hr i Hi) as Hc.
  unfold reliable_sequence_buffer_at_index. rewrite Z.geb_leb.
  destruct (Z.leb_spec 0 i), (Z.ltb_spec i (num_entries sb)); try lia.
  simpl. split.
  - intros p. split.
    + destruct (Z.eqb_spec (load (entry_sequence sb) i) EMPTY) as [E|E];
        simpl; [discriminate|]. intros [= <-].
      destruct Hc as [Hc|(Hv & Hrem)]; [contradiction|].
      exists (load (entry_sequence sb) i). split; [unfold is_u16; lia|].
      split; [exact Hrem|]. apply find_spec. rewrite Hrem. split; [|reflexivity].
      apply exists_spec. rewrite Hrem. reflexivity.
    + intros (s & Hs & Hrem & Hf). apply find_spec in Hf as (He & ->).
      apply exists_spec in He. rewrite Hrem in *. rewrite He.
      destruct (Z.eqb_spec s EMPTY) as [E|E]; [|reflexivity].
      unfold is_u16, EMPTY in *. lia.
  - split.
    + destruct (Z.eqb_spec (load (entry_sequence sb) i) EMPTY) as [E|E];
        simpl; [|discriminate].
      intros _ s Hs Hrem. unfold reliable_sequence_buffer_exists.
      rewrite Hrem, E. apply Z.eqb_neq. unfold is_u16, EMPTY in *. lia.
    + intros Hnone.
      destruct (Z.eqb_spec (load (entry_sequence sb) i) EMPTY) as [E|E];
        simpl; [reflexivity|]. exfalso.
      destruct Hc as [Hc|(Hv & Hrem)]; [contradiction|].
      assert (Hu : is_u16 (load (entry_sequence sb) i)) by (unfold is_u16; lia).
      specialize (Hnone _ Hu Hrem).
      unfold reliable_sequence_buffer_exists in Hnone.
      rewrite Hrem, Z.eqb_refl in Hnone. discriminate.
Qed.

Lemma at_index_agrees_with_find_witness :
  let sb :=
    fst (reliable_sequence_buffer_insert
           (reliable_sequence_buffer_reset (mk_sequence_buffer 0 4 8 [7; 7; 7; 7]))
           5) in
  reliable_sequence_buffer_at_index sb 1 = Some (Some 8).
Proof.
  intros sb.
  assert (Hr : reachable sb).
  { apply reach_insert; [|unfold is_u16; lia].
    apply (reach_reset (fun _ => 7) 4 8). reflexivity. }
  assert (Hi : 0 <= 1 < num_entries sb) by (simpl; lia).
  apply (proj1 (at_index_agrees_with_find sb 1 Hr Hi)).
  exists 5. repeat split; unfold is_u16; lia.
Defined.

Lemma store_store (a : list Z) i v w : store (store a i v) i w = store a i w.
Proof.
  unfold store. destruct (0 <=? i); [apply list_insert_insert_eq | reflexivity].
Qed.

Lemma store_same (a : list Z) i :
  0 <= i < Z.of_nat (length a) -> store a i (load a i) = a.
Proof.
  intros Hi. unfold store, load. destruct (Z.leb_spec 0 i); [|lia].
  destruct (a !! Z.to_nat i) as [v|] eqn:E.
  - simpl. apply list_insert_id, E.
  - apply lookup_ge_None in E. lia.
Qed.

Lemma store_comm (a : list Z) i j v :
  store (store a i v) j v = store (store a j v) i v.
Proof.
  unfold store. destruct (Z.leb_spec 0 i), (Z.leb_spec 0 j); try reflexivity.
  destruct (Z.eq_dec i j) as [->|Hne]; [reflexivity|].
  apply list_insert_insert_ne. lia.
Qed.

Lemma greater_than_irrefl a : reliable_sequence_greater_than a a = false.
Proof. apply greater_than_false. lia. Qed.

Lemma insert_no_advance sb s :
  reliable_sequence_greater_than (u16 (s + 1)) (sequence sb) = false ->
  reliable_sequence_buffer_insert sb s =
  if reliable_sequence_less_than s (u16 (sequence sb - num_entries sb))
  then (sb, None) else insert_slot sb s.
Proof. intros H. unfold reliable_sequence_buffer_insert. rewrite H. reflexivity. Qed.

(** X7. When inserting [s] does not advance the window and the slot of [s]
    was available, removing [s] right after the insert restores the buffer
    exactly. *)
Theorem insert_remove_restores sb s :
  wf sb -> is_u16 s ->
  reliable_sequence_greater_than (u16 (s + 1)) (sequence sb) = false ->
  reliable_sequence_buffer_available sb s = true ->
  reliable_sequence_buffer_remove
    (fst (reliable_sequence_buffer_insert sb s)) s = sb.
Proof.
  intros Hwf Hs Hgt Ha.
  pose proof (slot_in_bounds sb s Hwf ltac:(unfold is_u16 in Hs; lia)) as Hb.
  unfold reliable_sequence_buffer_available in Ha. apply Z.eqb_eq in Ha.
  assert (E : store (entry_sequence sb) (Z.rem s (num_entries sb)) EMPTY
              = entry_sequence sb).
  { rewrite <- Ha at 1. apply store_same, Hb. }
  unfold reliable_sequence_buffer_insert. rewrite Hgt.
  destruct (reliable_sequence_less_than _ _);
    unfold reliable_sequence_buffer_remove, with_entries; simpl;
    rewrite ?store_store, E; destruct sb; reflexivity.
Qed.

Lemma insert_remove_restores_witness :
  let sb := mk_sequence_buffer 8 4 8 [4; EMPTY; 6; 7] in
  reliable_sequence_buffer_remove
    (fst (reliable_sequence_buffer_insert sb 5)) 5 = sb.
Proof.
  intros sb. apply insert_remove_restores; try reflexivity.
  - unfold wf, is_u16. simpl. lia.
  - unfold is_u16. lia.
Defined.

(** X8. Inserting the same sequence number twice in a row leaves the buffer
    as the first insert left it; for a capacity of at most 32768 the second
    insert also returns what the first one returned. *)
Theorem insert_twice sb s :
  wf sb -> is_u16 s ->
  let r := reliable_sequence_buffer_insert sb s in
  fst (reliable_sequence_buffer_insert (fst r) s) = fst r /\
  (num_entries sb <= 32768 ->
   snd (reliable_sequence_buffer_insert (fst r) s) = snd r).
Proof.
  intros Hwf Hs r. subst r. pose proof Hwf as (Hn & _ & _).
  destruct (reliable_sequence_greater_than (u16 (s + 1)) (sequence sb)) eqn:Hgt.
  - rewrite (insert_advance_unfold sb s Hgt).
    set (sb1 := with_sequence _ _).
    assert (En : num_entries sb1 = num_entries sb)
      by (simpl; apply remove_entries_fields).
    rewrite (insert_no_advance (fst (insert_slot sb1 s)) s
               (greater_than_irrefl (u16 (s + 1)))).
    change (sequence (fst (insert_slot sb1 s))) with (u16 (s + 1)).
    change (num_entries (fst (insert_slot sb1 s))) with (num_entries sb1).
    rewrite En.
    destruct (reliable_sequence_less_than s _) eqn:Hlt; split.
    + reflexivity.
    + intros Hcap. exfalso. unfold reliable_sequence_less_than in Hlt.
      apply greater_than_distance in Hlt; [|apply u16_range|exact Hs].
      rewrite u16_sub_l in Hlt.
      replace (u16 (s + 1) - num_entries sb - s)
        with (u16 (s + 1) - (num_entries sb + s)) in Hlt by lia.
      rewrite u16_sub_l in Hlt.
      replace (s + 1 - (num_entries sb + s)) with (1 - num_entries sb) in Hlt by lia.
      assert (Hd : u16 (1 - num_entries sb) =
                   if num_entries sb =? 1 then 0 else 65537 - num_entries sb).
      { unfold u16. destruct (Z.eqb_spec (num_entries sb) 1) as [->|Hne];
          [reflexivity|].
        symmetry. apply (Z.mod_unique _ _ (-1)); lia. }
      rewrite Hd in Hlt. destruct (Z.eqb_spec (num_entries sb) 1); lia.
    + unfold insert_slot, with_entries. simpl. rewrite store_store. reflexivity.
    + reflexivity.
  - rewrite (insert_no_advance sb s Hgt).
    destruct (reliable_sequence_less_than s _) eqn:Hlt.
    + simpl. rewrite (insert_no_advance sb s Hgt), Hlt. auto.
    + rewrite (insert_no_advance (fst (insert_slot sb s)) s Hgt).
      change (sequence (fst (insert_slot sb s))) with (sequence sb).
      change (num_entries (fst (insert_slot sb s))) with (num_entries sb).
      rewrite Hlt. split; [|reflexivity].
      unfold insert_slot, with_entries. simpl. rewrite store_store. reflexivity.
Qed.

Lemma insert_twice_witness :
  let sb := mk_sequence_buffer 8 4 8 [4; EMPTY; 6; 7] in
  snd (reliable_sequence_buffer_insert
         (fst (reliable_sequence_buffer_insert sb 9)) 9) = Some 8.
Proof.
  intros sb.
  assert (Hwf : wf sb) by (unfold wf, is_u16; simpl; lia).
  assert (Hs : is_u16 9) by (unfold is_u16; lia).
  rewrite (proj2 (insert_twice sb 9 Hwf Hs)); [reflexivity | simpl; lia].
Defined.

(** X9. Two removals commute, whatever the two sequence numbers are. *)
Theorem remove_commutes sb s t :
  reliable_sequence_buffer_remove (reliable_sequence_buffer_remove sb s) t =
  reliable_sequence_buffer_remove (reliable_sequence_buffer_remove sb t) s.
Proof.
  unfold reliable_sequence_buffer_remove, with_entries. simpl.
  f_equal. apply store_comm.
Qed.

(** X10. Neither [remove] nor [remove_entries] ever makes a sequence number
    exist, and a sequence number that was available stays available. *)
Theorem removal_never_creates sb s start finish t :
  is_u16 t ->
  (reliable_sequence_buffer_exists (reliable_sequence_buffer_remove sb s) t = true ->
   reliable_sequence_buffer_exists sb t = true) /\
  (reliable_sequence_buffer_exists
     (reliable_sequence_buffer_remove_entries sb start finish) t = true ->
   reliable_sequence_buffer_exists sb t = true) /\
  (reliable_sequence_buffer_available sb t = true ->
   reliable_sequence_buffer_available (reliable_sequence_buffer_remove sb s) t
     = true /\
   reliable_sequence_buffer_available
     (reliable_sequence_buffer_remove_entries sb start finish) t = true).
Proof.
  intros Ht. split; [apply exists_remove, Ht|].
  split; [apply exists_remove_entries, Ht|].
  unfold reliable_sequence_buffer_available. rewrite !Z.eqb_eq. intros Ha.
  destruct (remove_entries_fields sb start finish) as (_ & -> & _).
  split.
  - simpl. destruct (load_store_cases (entry_sequence sb)
      (Z.rem s (num_entries sb)) (Z.rem t (num_entries sb)) EMPTY); congruence.
  - destruct (remove_entries_cases sb start finish (Z.rem t (num_entries sb)));
      congruence.
Qed.

Lemma removal_never_creates_witness :
  let sb := mk_sequence_buffer 8 4 8 [4; EMPTY; 6; 7] in
  reliable_sequence_buffer_available
    (reliable_sequence_buffer_remove_entries sb 6 7) 5 = true.
Proof.
  intros sb. assert (Ht : is_u16 5) by (unfold is_u16; lia).
  apply (removal_never_creates sb 0 6 7 5 Ht). reflexivity.
Defined.

(** ** The sliding window *)

Lemma u16_succ s :
  is_u16 s -> u16 (s + 1) = if s =? 65535 then 0 else s + 1.
Proof.
  unfold is_u16, u16. intros Hs. destruct (Z.eqb_spec s 65535) as [->|Hne];
    [reflexivity | apply Z.mod_small; lia].
Qed.

Lemma u16_back q n :
  is_u16 q -> 1 <= n <= 65536 ->
  u16 (q - n) = if n <=? q then q - n else q - n + 65536.
Proof.
  unfold is_u16, u16. intros Hq Hn. destruct (Z.leb_spec n q).
  - apply Z.mod_small. lia.
  - symmetry. apply (Z.mod_unique _ _ (-1)); lia.
Qed.

(** An insert that neither advances the window nor is rejected is an insert
    into the trailing window. *)
Lemma no_advance_accept_window sb s :
  wf sb -> is_u16 s -> 2 <= num_entries sb <= 32768 ->
  reliable_sequence_greater_than (u16 (s + 1)) (sequence sb) = false ->
  reliable_sequence_less_than s (u16 (sequence sb - num_entries sb)) = false ->
  1 <= u16 (sequence sb - s) <= num_entries sb.
Proof.
  intros (_ & _ & Hq) Hs Hn Hgt Hlt. unfold reliable_sequence_less_than in Hlt.
  apply greater_than_false in Hgt, Hlt.
  rewrite u16_succ in Hgt by exact Hs.
  rewrite u16_back in Hlt by (unfold is_u16 in *; lia).
  rewrite u16_diff by assumption. unfold is_u16 in *.
  destruct (Z.eqb_spec s 65535), (Z.leb_spec (num_entries sb) (sequence sb)),
    (Z.leb_spec s (sequence sb)); lia.
Qed.

(** X11. For a capacity [n <= 32768] and a buffer whose offsets do not
    overflow an [int], what [insert s] does is decided by how far [s] is
    behind [sequence], [d = (sequence - s) mod 65536]: for [1 <= d <= n] it
    is accepted and [sequence] stays; for [n < d <= 32768] it is rejected
    and nothing changes; for [d = 0] or [d >= 32770] it is accepted and
    [sequence] becomes [s + 1].  An accepted insert returns the payload
    address of slot [s % n], an [int] offset inside [entry_data]. *)
Theorem insert_window_cases sb s :
  wf sb -> offsets_defined sb -> is_u16 s -> num_entries sb <= 32768 ->
  let d := u16 (sequence sb - s) in
  let r := reliable_sequence_buffer_insert sb s in
  let offset := Z.rem s (num_entries sb) * entry_stride sb in
  (is_int offset /\ 0 <= offset /\
   offset + entry_stride sb <= num_entries sb * entry_stride sb) /\
  (1 <= d <= num_entries sb ->
     snd r = Some offset /\ sequence (fst r) = sequence sb) /\
  (num_entries sb < d <= 32768 -> r = (sb, None)) /\
  (d = 0 \/ 32770 <= d ->
     snd r = Some offset /\ sequence (fst r) = u16 (s + 1)).
Proof.
  intros Hwf Hoff Hs Hcap d r offset.
  split; [apply slot_offset_defined; [exact Hwf | exact Hoff |];
          unfold is_u16 in Hs; lia|].
  destruct Hwf as (Hn & _ & Hq). subst d r offset.
  pose proof (u16_diff (sequence sb) s Hq Hs) as Hd.
  pose proof (u16_succ s Hs) as Hsucc.
  pose proof (u16_back (sequence sb) (num_entries sb) Hq ltac:(lia)) as Hback.
  unfold is_u16 in *.
  split; [|split].
  - intros Hwin.
    assert (Hgt : reliable_sequence_greater_than (u16 (s + 1)) (sequence sb) = false).
    { apply greater_than_false. rewrite Hsucc.
      destruct (Z.eqb_spec s 65535), (Z.leb_spec s (sequence sb)); lia. }
    assert (Hlt : reliable_sequence_less_than s
                    (u16 (sequence sb - num_entries sb)) = false).
    { apply greater_than_false. rewrite Hback.
      destruct (Z.leb_spec (num_entries sb) (sequence sb)),
        (Z.leb_spec s (sequence sb)); lia. }
    rewrite (insert_no_advance sb s Hgt), Hlt. split; reflexivity.
  - intros Hold.
    assert (Hgt : reliable_sequence_greater_than (u16 (s + 1)) (sequence sb) = false).
    { apply greater_than_false. rewrite Hsucc.
      destruct (Z.eqb_spec s 65535), (Z.leb_spec s (sequence sb)); lia. }
    assert (Hlt : reliable_sequence_less_than s
                    (u16 (sequence sb - num_entries sb)) = true).
    { apply greater_than_spec. rewrite Hback.
      destruct (Z.leb_spec (num_entries sb) (sequence sb)),
        (Z.leb_spec s (sequence sb)); lia. }
    rewrite (insert_no_advance sb s Hgt), Hlt. reflexivity.
  - intros Hnew.
    assert (Hgt : reliable_sequence_greater_than (u16 (s + 1)) (sequence sb) = true).
    { apply greater_than_spec. rewrite Hsucc.
      destruct (Z.eqb_spec s 65535), (Z.leb_spec s (sequence sb)); lia. }
    rewrite (insert_advance_unfold sb s Hgt). rewrite insert_slot_snd. simpl.
    destruct (remove_entries_fields sb (sequence sb) s) as (_ & -> & -> & _).
    split; reflexivity.
Qed.

Lemma insert_window_cases_witness :
  let sb := mk_sequence_buffer 8 4 8 [4; EMPTY; 6; 7] in
  reliable_sequence_buffer_insert sb 3 = (sb, None).
Proof.
  intros sb.
  assert (Hwf : wf sb) by (unfold wf, is_u16; simpl; lia).
  assert (Hs : is_u16 3) by (unfold is_u16; lia).
  assert (Hoff : offsets_defined sb)
    by (unfold offsets_defined, INT_MAX; simpl; lia).
  assert (Hcap : num_entries sb <= 32768) by (simpl; lia).
  apply (proj1 (proj2 (proj2 (insert_window_cases sb 3 Hwf Hoff Hs Hcap)))).
  change (u16 (sequence sb - 3)) with 5. simpl. lia.
Defined.

(** When the capacity divides 65536 the slot of a sequence number does not
    depend on the multiple of 65536 added to it. *)
Lemma slot_shift n x j :
  0 < n -> 65536 mod n = 0 -> (x + 65536 * j) mod n = x mod n.
Proof.
  intros Hn Hdiv. apply Z_div_exact_full_2 in Hdiv; [|lia].
  rewrite Hdiv at 1.
  replace (x + n * (65536 / n) * j) with (x + (65536 / n * j) * n) by lia.
  apply Z.mod_add. lia.
Qed.

Lemma u16_slot n x :
  0 < n -> 65536 mod n = 0 -> u16 x mod n = x mod n.
Proof.
  intros Hn Hdiv. unfold u16.
  rewrite (Z.div_mod x 65536) at 2 by lia.
  rewrite Z.add_comm. symmetry. apply slot_shift; assumption.
Qed.

Lemma insert_advance_exists_slot sb s t :
  wf sb -> is_u16 s -> is_u16 t ->
  reliable_sequence_greater_than (u16 (s + 1)) (sequence sb) = true ->
  reliable_sequence_buffer_exists
    (fst (reliable_sequence_buffer_insert sb s)) t = true ->
  t = s \/
  (t mod num_entries sb <> s mod num_entries sb /\
   reliable_sequence_buffer_exists sb t = true /\
   forall q,
     sequence sb <= q <= (if s <? sequence sb then s + 65535 else s) ->
     q mod num_entries sb <> t mod num_entries sb).
Proof.
  intros Hwf Hs Ht Hgt He.
  destruct (insert_advance_exists sb s t Hwf Hs Ht Hgt He) as [E|(Hold & Hmiss)];
    [auto|].
  destruct (Z.eq_dec t s) as [E|Hne]; [auto|]. right.
  split; [|auto].
  rewrite insert_advance_unfold in He by exact Hgt.
  apply exists_insert_slot in He; [|apply advance_wf, Hwf|exact Hs].
  destruct He as [E|(Hslot & _)]; [contradiction|].
  simpl in Hslot.
  destruct (remove_entries_fields sb (sequence sb) s) as (_ & En & _).
  rewrite En in Hslot. destruct Hwf as (Hn & _).
  unfold is_u16 in *. rewrite !rem_mod in Hslot by lia. exact Hslot.
Qed.

Lemma trailing_window_insert sb s :
  wf sb -> 65536 mod num_entries sb = 0 -> 2 <= num_entries sb <= 32768 ->
  is_u16 s -> trailing_window sb ->
  trailing_window (fst (reliable_sequence_buffer_insert sb s)).
Proof.
  intros Hwf Hdiv Hcap Hs Hw t Ht He.
  destruct (insert_fields sb s) as (En & _). rewrite En.
  pose proof Hwf as (Hn & _ & Hq).
  destruct (reliable_sequence_greater_than (u16 (s + 1)) (sequence sb)) eqn:Hgt.
  - (* the window advances *)
    pose proof (insert_advance_exists_slot sb s t Hwf Hs Ht Hgt He) as Hex.
    rewrite (insert_advance_sequence sb s Hgt).
    rewrite u16_sub_l.
    destruct Hex as [->|(Hslot & Hold & Hmiss)].
    { replace (s + 1 - s) with 1 by lia. change (u16 1) with 1. lia. }
    specialize (Hw t Ht Hold).
    set (d := u16 (sequence sb - t)) in *.
    assert (Hx : (sequence sb + (num_entries sb - d)) mod num_entries sb
                 = t mod num_entries sb).
    { subst d. rewrite u16_diff by assumption.
      destruct (Z.leb_spec t (sequence sb)).
      - replace (sequence sb + (num_entries sb - (sequence sb - t)))
          with (t + 1 * num_entries sb) by lia.
        apply Z.mod_add. lia.
      - replace (sequence sb + (num_entries sb - (sequence sb - t + 65536)))
          with (t + 1 * num_entries sb + 65536 * (-1)) by lia.
        rewrite slot_shift by (assumption || lia). apply Z.mod_add. lia. }
    assert (Hs' : (s + 65536) mod num_entries sb = s mod num_entries sb).
    { replace (s + 65536) with (s + 65536 * 1) by lia.
      apply slot_shift; assumption || lia. }
    apply greater_than_spec in Hgt. rewrite u16_succ in Hgt by exact Hs.
    pose proof (u16_diff (sequence sb) t Hq Ht) as Hd. fold d in Hd.
    assert (Hgoal : u16 (s + 1 - t) =
                    if s + 1 - t <? 0 then s + 1 - t + 65536
                    else if s + 1 - t =? 65536 then 0 else s + 1 - t).
    { unfold u16, is_u16 in *. destruct (Z.ltb_spec (s + 1 - t) 0).
      - symmetry. apply (Z.mod_unique _ _ (-1)); lia.
      - destruct (Z.eqb_spec (s + 1 - t) 65536) as [E|E].
        + rewrite E. reflexivity.
        + apply Z.mod_small. lia. }
    rewrite Hgoal. unfold is_u16 in *.
    destruct (Z.le_gt_cases (sequence sb + (num_entries sb - d))
                (if s <? sequence sb then s + 65535 else s)) as [Hin|Hout].
    { exfalso. apply (Hmiss (sequence sb + (num_entries sb - d))); [lia|exact Hx]. }
    destruct (Z.ltb_spec s (sequence sb)).
    + (* the range wraps *)
      destruct (Z.eq_dec (sequence sb + (num_entries sb - d)) (s + 65536))
        as [E|E].
      { exfalso. apply Hslot. rewrite <- Hx, E. exact Hs'. }
      destruct (Z.eqb_spec s 65535), (Z.leb_spec t (sequence sb)),
        (Z.ltb_spec (s + 1 - t) 0), (Z.eqb_spec (s + 1 - t) 65536); lia.
    + destruct (Z.eqb_spec s 65535), (Z.leb_spec t (sequence sb)),
        (Z.ltb_spec (s + 1 - t) 0), (Z.eqb_spec (s + 1 - t) 65536); lia.
  - rewrite (insert_no_advance sb s Hgt) in He |- *.
    destruct (reliable_sequence_less_than s _) eqn:Hlt.
    + apply Hw; assumption.
    + apply exists_insert_slot in He; [|exact Hwf|exact Hs]. simpl.
      destruct He as [->|(_ & Hold)].
      * apply no_advance_accept_window; assumption.
      * apply Hw; assumption.
Qed.

(** X12. For a capacity that divides 65536 and lies between 2 and 32768,
    in every state reached from a reset buffer each existing sequence number
    is one of the [num_entries] numbers before [sequence]: a sequence number
    that has left the window never exists. *)
Theorem reachable_trailing_window sb :
  reachable sb ->
  65536 mod num_entries sb = 0 -> 2 <= num_entries sb <= 32768 ->
  trailing_window sb.
Proof.
  induction 1 as [mem n stride sb Hc | sb s Hr IH Hs | sb s Hr IH Hs
                 | sb start finish Hr IH Hd]; intros Hdiv Hcap.
  - apply create_wf in Hc. destruct Hc as ((Hn & _) & _).
    intros t Ht He. exfalso.
    destruct (reset_all_available sb t Hn ltac:(unfold is_u16 in Ht; lia))
      as (_ & Hne).
    rewrite (Hne Ht) in He. discriminate.
  - destruct (insert_fields sb s) as (En & _). rewrite En in Hdiv, Hcap.
    apply trailing_window_insert; auto using reachable_wf.
  - intros t Ht He. apply exists_remove in He; [|exact Ht].
    exact (IH Hdiv Hcap t Ht He).
  - destruct (remove_entries_fields sb start finish) as (Eq & En & _).
    rewrite En in Hdiv, Hcap.
    intros t Ht He. rewrite Eq, En.
    apply exists_remove_entries in He; [|exact Ht]. exact (IH Hdiv Hcap t Ht He).
Qed.

Lemma reachable_trailing_window_witness :
  trailing_window
    (fst (reliable_sequence_buffer_insert
            (reliable_sequence_buffer_reset (mk_sequence_buffer 0 4 8 [7; 7; 7; 7]))
            5)).
Proof.
  apply reachable_trailing_window.
  - apply reach_insert; [|unfold is_u16; lia].
    apply (reach_reset (fun _ => 7) 4 8). reflexivity.
  - reflexivity.
  - simpl. lia.
Defined.

Lemma insert_all_snoc sb l s :
  insert_all sb (l ++ [s]) =
  fst (reliable_sequence_buffer_insert (insert_all sb l) s).
Proof. unfold insert_all. rewrite fold_left_app. reflexivity. Qed.

Lemma consecutive_S q k :
  consecutive q (S k) = consecutive q k ++ [u16 (q + Z.of_nat k)].
Proof. unfold consecutive. rewrite seq_S, map_app. reflexivity. Qed.

Lemma insert_all_wf sb l :
  wf sb -> wf (insert_all sb l) /\ num_entries (insert_all sb l) = num_entries sb.
Proof.
  revert sb. induction l as [|s l IH]; intros sb Hwf; [auto|].
  simpl. destruct (IH _ (insert_wf sb s Hwf)) as (H1 & H2).
  split; [exact H1|]. rewrite H2. apply insert_fields.
Qed.

Lemma slots_differ n q j k :
  0 < n -> 0 <= j < k -> k < n -> (q + j) mod n <> (q + k) mod n.
Proof.
  intros Hn Hj Hk E.
  assert (H : (q + k - (q + j)) mod n = 0)
    by (rewrite Zminus_mod, E, Z.sub_diag; apply Z.mod_0_l; lia).
  rewrite Z.mod_small in H by lia. lia.
Qed.

(** X13. For a capacity that divides 65536, inserting [k <= num_entries]
    consecutive sequence numbers starting at [sequence] (wrapping at 65536)
    advances [sequence] by [k], and all [k] of them exist afterwards. *)
Theorem consecutive_inserts_exist sb (k : nat) :
  wf sb -> 65536 mod num_entries sb = 0 -> Z.of_nat k <= num_entries sb ->
  let sb' := insert_all sb (consecutive (sequence sb) k) in
  sequence sb' = u16 (sequence sb + Z.of_nat k) /\
  forall j, (j < k)%nat ->
    reliable_sequence_buffer_exists sb' (u16 (sequence sb + Z.of_nat j)) = true.
Proof.
  intros Hwf Hdiv. pose proof Hwf as (Hn & _ & Hq).
  induction k as [|k IH]; intros Hk sb'.
  - subst sb'. simpl. rewrite Z.add_0_r, u16_small by exact Hq.
    split; [reflexivity | intros j Hj; lia].
  - destruct (IH ltac:(lia)) as (Hseq & Hex). clear IH.
    subst sb'. rewrite consecutive_S, insert_all_snoc.
    set (sbk := insert_all sb (consecutive (sequence sb) k)) in *.
    destruct (insert_all_wf sb (consecutive (sequence sb) k) Hwf) as (Hwfk & Enk).
    fold sbk in Hwfk, Enk.
    set (s := u16 (sequence sb + Z.of_nat k)) in *.
    assert (Hs : is_u16 s) by apply u16_range.
    assert (Hgt : reliable_sequence_greater_than (u16 (s + 1)) (sequence sbk) = true)
      by (rewrite Hseq; apply greater_than_succ, Hs).
    split.
    + rewrite (insert_advance_sequence sbk s Hgt). subst s. unfold u16.
      rewrite Zplus_mod_idemp_l. f_equal. lia.
    + intros j Hj. destruct (Nat.eq_dec j k) as [->|Hne].
      * apply insert_advance_exists_self; assumption.
      * assert (Hslot : u16 (sequence sb + Z.of_nat j) mod num_entries sb
                        <> s mod num_entries sb).
        { subst s. rewrite !u16_slot by assumption.
          apply slots_differ; lia. }
        apply insert_advance_keeps; try assumption; rewrite ?Enk, ?Hseq.
        -- apply u16_range.
        -- rewrite Z.ltb_irrefl. lia.
        -- exact Hslot.
        -- rewrite Z.ltb_irrefl. intros q Hq'.
           replace q with s by lia. auto.
        -- apply Hex. lia.
Qed.

Lemma consecutive_inserts_exist_witness :
  let sb := mk_sequence_buffer 65534 4 8 [EMPTY; EMPTY; EMPTY; EMPTY] in
  reliable_sequence_buffer_exists
    (insert_all sb (consecutive 65534 4)) 65535 = true.
Proof.
  intros sb.
  assert (Hwf : wf sb) by (unfold wf, is_u16; simpl; lia).
  assert (Hk : Z.of_nat 4 <= num_entries sb) by (simpl; lia).
  exact (proj2 (consecutive_inserts_exist sb 4 Hwf eq_refl Hk) 1%nat
           ltac:(repeat constructor)).
Defined.

(** X14. For a capacity that divides 65536, an insert that advances the
    window by [k = (s + 1 - sequence) mod 65536] keeps every existing
    sequence number [t] that is still inside the new window, that is, with
    [d + k <= num_entries] where [d = (sequence - t) mod 65536 >= 1]. *)
Theorem insert_advance_keeps_window sb s t :
  wf sb -> 65536 mod num_entries sb = 0 -> is_u16 s -> is_u16 t ->
  reliable_sequence_greater_than (u16 (s + 1)) (sequence sb) = true ->
  reliable_sequence_buffer_exists sb t = true ->
  1 <= u16 (sequence sb - t) ->
  u16 (sequence sb - t) + u16 (s + 1 - sequence sb) <= num_entries sb ->
  reliable_sequence_buffer_exists (fst (reliable_sequence_buffer_insert sb s)) t
    = true.
Proof.
  intros Hwf Hdiv Hs Ht Hgt He Hd1 Hdk. pose proof Hwf as (Hn & _ & Hq).
  set (d := u16 (sequence sb - t)) in *.
  set (k := u16 (s + 1 - sequence sb)) in *.
  assert (Hk : k = if s <? sequence sb then s + 1 - sequence sb + 65536
                   else s + 1 - sequence sb).
  { subst k. apply greater_than_spec in Hgt. rewrite u16_succ in Hgt by exact Hs.
    unfold u16, is_u16 in *. destruct (Z.ltb_spec s (sequence sb)).
    - symmetry. apply (Z.mod_unique _ _ (-1)); destruct (Z.eqb_spec s 65535); lia.
    - apply Z.mod_small. destruct (Z.eqb_spec s 65535); lia. }
  assert (Hbase : forall i, (sequence sb - d + i) mod num_entries sb
                            = (t + i) mod num_entries sb).
  { intros i. subst d. rewrite u16_diff by assumption.
    destruct (Z.leb_spec t (sequence sb)).
    - f_equal. lia.
    - replace (sequence sb - (sequence sb - t + 65536) + i)
        with (t + i + 65536 * (-1)) by lia.
      apply slot_shift; assumption. }
  assert (Ht0 : t mod num_entries sb = (sequence sb - d + 0) mod num_entries sb)
    by (rewrite Hbase; f_equal; lia).
  unfold is_u16 in *.
  apply insert_advance_keeps; try assumption; unfold is_u16; try lia.
  - destruct (Z.ltb_spec s (sequence sb)); lia.
  - rewrite Ht0.
    destruct (Z.ltb_spec s (sequence sb)).
    + replace (s mod num_entries sb)
        with ((sequence sb - d + (d + k - 1)) mod num_entries sb).
      * apply slots_differ; lia.
      * replace (sequence sb - d + (d + k - 1)) with (s + 65536 * 1) by lia.
        apply slot_shift; assumption.
    + replace s with (sequence sb - d + (d + k - 1)) at 1 by lia.
      apply slots_differ; lia.
  - intros q Hq'. rewrite Ht0. apply not_eq_sym.
    replace q with (sequence sb - d + (d + (q - sequence sb))) by lia.
    apply slots_differ; destruct (Z.ltb_spec s (sequence sb)); lia.
Qed.

Lemma insert_advance_keeps_window_witness :
  let sb := mk_sequence_buffer 65535 4 8 [EMPTY; EMPTY; 65534; EMPTY] in
  reliable_sequence_buffer_exists
    (fst (reliable_sequence_buffer_insert sb 0)) 65534 = true.
Proof.
  intros sb. apply insert_advance_keeps_window; try reflexivity.
  - unfold wf, is_u16. simpl. lia.
  - unfold is_u16. lia.
  - unfold is_u16. lia.
  - change (u16 (sequence sb - 65534) + u16 (0 + 1 - sequence sb)) with 3.
    simpl. lia.
Defined.

(** X15. [create] fails exactly when the capacity or the stride is not
    positive; a created buffer is well formed with [sequence = 0], and once
    reset it does not depend on what the allocated memory held. *)
Theorem create_then_reset mem n stride :
  (reliable_sequence_buffer_create mem n stride = None <->
   n <= 0 \/ stride <= 0) /\
  (forall sb, reliable_sequence_buffer_create mem n stride = Some sb ->
     wf sb /\ sequence sb = 0 /\ num_entries sb = n /\ entry_stride sb = stride /\
     forall mem' sb2,
       reliable_sequence_buffer_create mem' n stride = Some sb2 ->
       reliable_sequence_buffer_reset sb2 = reliable_sequence_buffer_reset sb).
Proof.
  split.
  - unfold reliable_sequence_buffer_create. rewrite !Z.gtb_ltb.
    destruct (Z.ltb_spec 0 n), (Z.ltb_spec 0 stride); simpl;
      split; try discriminate; try lia; auto; intros; lia.
  - intros sb Hc. destruct (create_wf mem n stride sb Hc) as (Hwf & En & Est & _).
    split; [exact Hwf|].
    split.
    { unfold reliable_sequence_buffer_create in Hc.
      destruct (_ && _); [|discriminate]. injection Hc as <-. reflexivity. }
    split; [exact En|]. split; [exact Est|].
    intros mem' sb2 Hc2.
    destruct (create_wf mem' n stride sb2 Hc2) as (_ & En2 & Est2 & _).
    unfold reliable_sequence_buffer_reset. rewrite En, Est, En2, Est2. reflexivity.
Qed.

Lemma create_then_reset_witness :
  reliable_sequence_buffer_reset (mk_sequence_buffer 0 4 8 [0; 1; 2; 3]) =
  reliable_sequence_buffer_reset (mk_sequence_buffer 0 4 8 [7; 7; 7; 7]).
Proof.
  destruct (proj2 (create_then_reset (fun _ => 7) 4 8)
              (mk_sequence_buffer 0 4 8 [7; 7; 7; 7]) eq_refl)
    as (_ & _ & _ & _ & H).
  exact (H Z.of_nat (mk_sequence_buffer 0 4 8 [0; 1; 2; 3]) eq_refl).
Defined.

End Reliable.
